(** * Technical-indicator formulas of [src/index.ts]

    A shallow embedding of the indicator library (moving averages, mean
    absolute deviation, Bollinger Bands, RSI, EMA, MACD and the
    Accumulation/Distribution line) together with the properties its
    specification states about it.

    Numbers.  A JavaScript [number] is modelled by [JsNumber.number]: an
    exact rational ([Qc]) or one of the three special values [Infinity],
    [-Infinity] and [NaN], combined by the IEEE-754 rules for special values
    (division by zero, [Infinity - Infinity], [0 * Infinity], comparisons
    with [NaN]).  Arithmetic on finite values is exact: rounding, overflow and
    the sign of zero are outside the model.  [Math.sqrt] of a finite value is
    a parameter of the model ([sqrtQ]), since it is irrational in general.
    A numeric series of the data model (real, finite values) is a list that
    satisfies [all_finite].

    Statements.  The language computes on doubles, so the theorems on the
    indicators are stated in a form that does not rest on the exactness of
    the model.  A value is related to the operations that compute it, in the
    order the code performs them; or the property is one that rounding does
    not change (a length, an error, a [NaN], a value such as 0 or 100 that
    the arithmetic gives exactly, an order between bands); and where a
    double could overflow, the statement allows the [Infinity] or [NaN] that
    follows, or bounds the inputs.  The lemmas that do use exact sums say
    so.

    Arrays.  A JavaScript array is a [list]; [slice], [reduce], indexed reads
    (which give [undefined] out of range) and counted [for] loops are in
    [JsArray], written the way the language defines them. *)

From Stdlib Require Import ZArith QArith Qcanon Qcabs List Bool Lia Lra Psatz.
Import ListNotations.

Local Open Scope Z_scope.

(* ------------------------------------------------------------------ *)
(** ** Numbers *)

Module JsNumber.

Inductive number : Type :=
| Fin (q : Qc)
| PInf
| NInf
| NaN.

Definition of_Q (q : Q) : number := Fin (Q2Qc q).
Definition of_Z (z : Z) : number := of_Q (inject_Z z).

Definition zero : number := of_Z 0.
Definition one : number := of_Z 1.
Definition two : number := of_Z 2.
Definition hundred : number := of_Z 100.

(** Sign of a number that is not [NaN]: [Lt] negative, [Eq] zero, [Gt]
    positive. *)
Definition sign (x : number) : comparison :=
  match x with
  | Fin q => Qccompare q (Q2Qc 0)
  | PInf => Gt
  | NInf => Lt
  | NaN => Eq
  end.

Definition sign_mul (s t : comparison) : comparison :=
  match s, t with
  | Eq, _ | _, Eq => Eq
  | Gt, Gt | Lt, Lt => Gt
  | _, _ => Lt
  end.

(** The infinity of a given sign; a zero sign stands for an invalid
    operation ([0 * Infinity], [0 / 0]) and gives [NaN]. *)
Definition inf_of (s : comparison) : number :=
  match s with
  | Gt => PInf
  | Lt => NInf
  | Eq => NaN
  end.

Definition is_zero (q : Qc) : bool := Qc_eq_bool q (Q2Qc 0).

Definition neg (x : number) : number :=
  match x with
  | Fin q => Fin (Qcopp q)
  | PInf => NInf
  | NInf => PInf
  | NaN => NaN
  end.

Definition add (x y : number) : number :=
  match x, y with
  | NaN, _ | _, NaN => NaN
  | Fin a, Fin b => Fin (Qcplus a b)
  | PInf, NInf | NInf, PInf => NaN
  | PInf, _ | _, PInf => PInf
  | NInf, _ | _, NInf => NInf
  end.

Definition sub (x y : number) : number := add x (neg y).

Definition mul (x y : number) : number :=
  match x, y with
  | NaN, _ | _, NaN => NaN
  | Fin a, Fin b => Fin (Qcmult a b)
  | _, _ => inf_of (sign_mul (sign x) (sign y))
  end.

Definition div (x y : number) : number :=
  match x, y with
  | NaN, _ | _, NaN => NaN
  | Fin a, Fin b =>
      if is_zero b then inf_of (sign x) else Fin (Qcdiv a b)
  | Fin _, _ => zero
  | _, Fin b =>
      if is_zero b then x else inf_of (sign_mul (sign x) (sign y))
  | _, _ => NaN
  end.

(** [x < y]; false as soon as one side is [NaN]. *)
Definition ltb (x y : number) : bool :=
  match x, y with
  | NaN, _ | _, NaN => false
  | Fin a, Fin b => match Qccompare a b with Lt => true | _ => false end
  | _, NInf => false
  | NInf, _ => true
  | PInf, _ => false
  | _, PInf => true
  end.

Definition gtb (x y : number) : bool := ltb y x.

(** [x <= y]; false as soon as one side is [NaN]. *)
Definition leb (x y : number) : bool :=
  match x, y with
  | NaN, _ | _, NaN => false
  | Fin a, Fin b => match Qccompare a b with Gt => false | _ => true end
  | NInf, _ => true
  | _, PInf => true
  | _, NInf => false
  | PInf, _ => false
  end.

(** [Math.abs] *)
Definition Math_abs (x : number) : number :=
  match x with
  | Fin q => Fin (Qcabs q)
  | PInf | NInf => PInf
  | NaN => NaN
  end.

(** [Math.pow(x, e)] for a literal natural exponent [e]. *)
Fixpoint Math_pow (x : number) (e : nat) : number :=
  match e with
  | O => one
  | S e' => mul x (Math_pow x e')
  end.

(** [Math.sqrt].  The square root of a non-negative rational is in
    general irrational, so its value on finite arguments is the parameter
    [sqrtQ]; the special cases are those of the language. *)
Definition Math_sqrt (sqrtQ : Qc -> Qc) (x : number) : number :=
  match x with
  | Fin q =>
      match Qccompare q (Q2Qc 0) with
      | Lt => NaN
      | _ => Fin (sqrtQ q)
      end
  | PInf => PInf
  | NInf => NaN
  | NaN => NaN
  end.

(** Reading [undefined] where a number is expected gives [NaN]. *)
Definition to_number (v : option number) : number :=
  match v with
  | Some x => x
  | None => NaN
  end.

Definition is_finite (x : number) : Prop :=
  match x with
  | Fin _ => True
  | _ => False
  end.

(** Structural equality test, used to evaluate closed examples. *)
Definition eqb (x y : number) : bool :=
  match x, y with
  | Fin a, Fin b => Qc_eq_bool a b
  | PInf, PInf | NInf, NInf | NaN, NaN => true
  | _, _ => false
  end.

(** A floor approximation of the square root on rationals, one possible
    reading of [sqrtQ] that computes: [sqrt (n/d) = sqrt (n*d) / d]. *)
Definition sqrt_floor (q : Qc) : Qc :=
  Q2Qc (Qmake (Z.sqrt (Qnum q * Zpos (Qden q))) (Qden q)).

End JsNumber.

Import JsNumber.

Declare Scope num_scope.
Delimit Scope num_scope with num.
Bind Scope num_scope with number.
Infix "+" := add : num_scope.
Infix "-" := sub : num_scope.
Infix "*" := mul : num_scope.
Infix "/" := div : num_scope.
Infix "<?" := ltb : num_scope.
Infix ">?" := gtb : num_scope.
Infix "<=?" := leb : num_scope.

(* ------------------------------------------------------------------ *)
(** ** Errors *)

(** The two ways a call can fail: the explicit [throw new Error("Not enough
    data points to calculate moving average")] and the [TypeError] the
    runtime raises when [reduce] is called without an initial value on an
    empty array. *)
Inductive error : Type :=
| NotEnoughDataPoints
| ReduceOfEmptyArray.

Inductive result (A : Type) : Type :=
| Ok (a : A)
| Throw (e : error).

Arguments Ok {A} a.
Arguments Throw {A} e.

Definition bind {A B : Type} (r : result A) (k : A -> result B) : result B :=
  match r with
  | Ok a => k a
  | Throw e => Throw e
  end.

Notation "x <- r ;; k" := (bind r (fun x => k))
  (at level 61, r at next level, right associativity).

(* ------------------------------------------------------------------ *)
(** ** Arrays *)

Module JsArray.

Section Arrays.
Context {A : Type}.

Definition len (l : list A) : Z := Z.of_nat (length l).

(** A relative index of [slice]: negative counts from the end, and the
    result is clamped to [0 .. len]. *)
Definition rel_index (n k : Z) : Z :=
  if k <? 0 then Z.max (n + k) 0 else Z.min k n.

(** [l.slice(start, stop)] *)
Definition slice (l : list A) (start stop : Z) : list A :=
  let s := rel_index (len l) start in
  let e := rel_index (len l) stop in
  firstn (Z.to_nat (e - s)) (skipn (Z.to_nat s) l).

(** [l.slice(start)] *)
Definition slice_from (l : list A) (start : Z) : list A :=
  slice l start (len l).

(** [l[i]]: [None] is [undefined]. *)
Definition get (l : list A) (i : Z) : option A :=
  if i <? 0 then None else nth_error l (Z.to_nat i).

(** [l.reduce(f, init)] *)
Definition reduce {B : Type} (f : B -> A -> B) (init : B) (l : list A) : B :=
  fold_left f l init.

(** [l.reduce(f)], which throws on an empty array. *)
Definition reduce1 (f : A -> A -> A) (l : list A) : result A :=
  match l with
  | [] => Throw ReduceOfEmptyArray
  | x :: rest => Ok (fold_left f rest x)
  end.

(** [l.push(x)] *)
Definition push (l : list A) (x : A) : list A := l ++ [x].

(** [l.map((x, i) => f x i)] with the index starting at [i0]. *)
Fixpoint mapi_from {B : Type} (f : A -> Z -> B) (i0 : Z) (l : list A) : list B :=
  match l with
  | [] => []
  | x :: rest => f x i0 :: mapi_from f (i0 + 1) rest
  end.

Definition mapi {B : Type} (f : A -> Z -> B) (l : list A) : list B :=
  mapi_from f 0 l.

End Arrays.

(** [k] rounds of a loop body, the counter starting at [i] and going up by
    one. *)
Fixpoint iterate {St : Type} (k : nat) (i : Z) (body : Z -> St -> St) (s : St) : St :=
  match k with
  | O => s
  | S k' => iterate k' (i + 1) body (body i s)
  end.

(** [for (let i = lo; i < hi; i++) body] *)
Definition for_lt {St : Type} (lo hi : Z) (body : Z -> St -> St) (s : St) : St :=
  iterate (Z.to_nat (hi - lo)) lo body s.

(** [for (let i = lo; i <= hi; i++) body] *)
Definition for_le {St : Type} (lo hi : Z) (body : Z -> St -> St) (s : St) : St :=
  for_lt lo (hi + 1) body s.

End JsArray.

Import JsArray.

(** [l[i]] read where a number is expected. *)
Definition get_num (l : list number) (i : Z) : number := to_number (get l i).

Notation "l .[ i ]" := (get_num l i) (at level 1, format "l .[ i ]").

(* ------------------------------------------------------------------ *)
(** ** The indicators *)

Local Open Scope num_scope.

(** [movingAverage(data, N)] *)
Definition movingAverage (data : list number) (N : Z) : result number :=
  if (len data <? N)%Z then Throw NotEnoughDataPoints
  else
    sum <- reduce1 (fun accumulator currentValue => accumulator + currentValue)
             (slice_from data (len data - N)) ;;
    Ok (sum / of_Z N).

(** One round of the loop of [simpleMovingAverage]; the state is
    [(sum, sma)]. *)
Definition sma_step (closePrices : list number) (n : Z) (i : Z)
    (st : number * list number) : number * list number :=
  let '(sum, sma) := st in
  let sum := sum + closePrices.[i] in
  if (i >=? n)%Z then
    let sum := sum - closePrices.[(i - n)%Z] in
    (sum, push sma (sum / of_Z n))
  else (sum, sma).

(** [simpleMovingAverage(closePrices, n)] *)
Definition simpleMovingAverage (closePrices : list number) (n : Z) : list number :=
  snd (for_lt 0 (len closePrices) (sma_step closePrices n) (zero, [])).

Record Envelope : Type := {
  upperEnvelope : list number;
  lowerEnvelope : list number
}.

(** [movingAverageEnvelope(closePrices, n, k)] *)
Definition movingAverageEnvelope (closePrices : list number) (n : Z) (k : number)
    : Envelope :=
  let sma := simpleMovingAverage closePrices n in
  {| upperEnvelope := map (fun price => price * (one + k / hundred)) sma;
     lowerEnvelope := map (fun price => price * (one - k / hundred)) sma |}.

(** The value [MAD] pushes for the window that starts at [i]. *)
Definition mad_value (numbers : list number) (windowSize : Z) (i : Z) : number :=
  let subset := slice numbers i (i + windowSize) in
  let avg := reduce (fun sum value => sum + value) zero subset / of_Z windowSize in
  let deviations := map (fun value => Math_abs (value - avg)) subset in
  reduce (fun sum value => sum + value) zero deviations / of_Z windowSize.

(** [MAD(numbers, windowSize)] *)
Definition MAD (numbers : list number) (windowSize : Z) : list number :=
  for_le 0 (len numbers - windowSize)
    (fun i mad => push mad (mad_value numbers windowSize i)) [].

Record BollingerBandsResult : Type := {
  upperBand : number;
  middleBand : number;
  lowerBand : number
}.

Section Bollinger.
Variable sqrtQ : Qc -> Qc.

(** The record [bollingerBands] pushes at index [i]. *)
Definition bollinger_at (data : list number) (period : Z) (deviation : number)
    (i : Z) : BollingerBandsResult :=
  if (i <? period - 1)%Z then
    {| upperBand := NaN; middleBand := NaN; lowerBand := NaN |}
  else
    let slice := slice data (i - period + 1) (i + 1) in
    let mean := reduce (fun acc val => acc + val) zero slice / of_Z period in
    let variance :=
      reduce (fun acc val => acc + Math_pow (val - mean) 2) zero slice
      / of_Z period in
    let stdDev := Math_sqrt sqrtQ variance in
    let upperBand := mean + deviation * stdDev in
    let lowerBand := mean - deviation * stdDev in
    {| upperBand := upperBand; middleBand := mean; lowerBand := lowerBand |}.

(** [bollingerBands(data, period, deviation)] *)
Definition bollingerBands (data : list number) (period : Z) (deviation : number)
    : list BollingerBandsResult :=
  for_lt 0 (len data)
    (fun i results => push results (bollinger_at data period deviation i)) [].

End Bollinger.

Record RSIOptions : Type := {
  period : Z;
  values : list number
}.

(** [calculateAverage(values)] *)
Definition calculateAverage (values : list number) : number :=
  let sum := reduce (fun a b => a + b) zero values in
  sum / of_Z (len values).

(** The first loop of [rsi]: the differences of adjacent values. *)
Definition rsi_deltas (values : list number) : list number :=
  for_lt 1 (len values)
    (fun i deltas => push deltas (values.[i] - values.[(i - 1)%Z])) [].

Definition gain_of (delta : number) : number :=
  if delta >? zero then delta else zero.

Definition loss_of (delta : number) : number :=
  if delta <? zero then Math_abs delta else zero.

(** [100 - 100 / (1 + rs)] with [rs = avgGain / avgLoss]. *)
Definition rsi_value (avgGain avgLoss : number) : number :=
  let rs := avgGain / avgLoss in
  hundred - hundred / (one + rs).

(** The averages [rsi] starts from: the means of the first [period] gains
    and losses. *)
Definition rsi_seed (period : Z) (deltas : list number) : number * number :=
  let gains := map gain_of deltas in
  let losses := map loss_of deltas in
  (calculateAverage (slice gains 0 period),
   calculateAverage (slice losses 0 period)).

(** One round of the second loop of [rsi]; the state is
    [(avgGain, avgLoss, rsi)]. *)
Definition rsi_step (period : Z) (deltas : list number) (i : Z)
    (st : number * number * list number) : number * number * list number :=
  let '(avgGain, avgLoss, rsi) := st in
  let delta := deltas.[(i - 1)%Z] in
  let gain := if delta >? zero then delta else zero in
  let loss := if delta <? zero then Math_abs delta else zero in
  let avgGain := (avgGain * of_Z (period - 1) + gain) / of_Z period in
  let avgLoss := (avgLoss * of_Z (period - 1) + loss) / of_Z period in
  (avgGain, avgLoss, push rsi (rsi_value avgGain avgLoss)).

(** The state of [rsi] when its second loop ends. *)
Definition rsi_run (period : Z) (values : list number)
    : number * number * list number :=
  let deltas := rsi_deltas values in
  let '(avgGain, avgLoss) := rsi_seed period deltas in
  for_lt period (len values) (rsi_step period deltas)
    (avgGain, avgLoss, [rsi_value avgGain avgLoss]).

(** [rsi(options)] *)
Definition rsi (options : RSIOptions) : list number :=
  snd (rsi_run (period options) (values options)).

Module Candle.
Record t : Type := {
  time : Z;
  open : number;
  high : number;
  low : number;
  close : number;
  volume : number
}.
End Candle.

(** An object of type [CandleWithMacdLine] as it exists when the code runs:
    [macd] builds it by spreading [candles[k]], which adds no field when
    that candle is [undefined], and then setting [macdLine]. *)
Record CandleWithMacdLine : Type := {
  candle : option Candle.t;
  macdLine : number
}.

(** The numeric keys of [CandleWithMacdLine] ([time] holds a [Date] and is
    not one of them). *)
Inductive CandleKey : Type :=
| key_open
| key_high
| key_low
| key_close
| key_volume
| key_macdLine.

(** [c[key]] *)
Definition field (c : CandleWithMacdLine) (key : CandleKey) : option number :=
  match key with
  | key_open => option_map Candle.open (candle c)
  | key_high => option_map Candle.high (candle c)
  | key_low => option_map Candle.low (candle c)
  | key_close => option_map Candle.close (candle c)
  | key_volume => option_map Candle.volume (candle c)
  | key_macdLine => Some (macdLine c)
  end.

(** One round of the loop of [ema]; the state is [(ema, emaArray)]. *)
Definition ema_step (prices : list number) (period : Z) (i : Z)
    (st : number * list number) : number * list number :=
  let '(ema, emaArray) := st in
  let ema :=
    prices.[i] * (two / of_Z (period + 1))
    + ema * (one - two / of_Z (period + 1)) in
  (ema, push emaArray ema).

(** [ema(candles, period, key)] *)
Definition ema (candles : list CandleWithMacdLine) (period : Z) (key : CandleKey)
    : result (list number) :=
  let prices := map (fun candle => to_number (field candle key)) candles in
  sum <- reduce1 (fun a b => a + b) (slice prices 0 period) ;;
  let ema := sum / of_Z period in
  Ok (snd (for_lt period (len prices) (ema_step prices period) (ema, [ema]))).

Definition macd_shortEMAValues (shortEMA longEMA : list number) : list number :=
  slice_from shortEMA (len longEMA - len shortEMA).

Definition macd_longEMAValues (shortEMA longEMA : list number) : list number :=
  slice_from longEMA (len longEMA - len shortEMA).

(** The [macdLine] array of [macd]. *)
Definition macd_macdLine (shortEMA longEMA : list number) : list number :=
  let shortEMAValues := macd_shortEMAValues shortEMA longEMA in
  let longEMAValues := macd_longEMAValues shortEMA longEMA in
  mapi (fun ema i => ema - longEMAValues.[i]) shortEMAValues.

(** The [signalLine] array of [macd]. *)
Definition macd_signalLine (candles : list Candle.t) (shortEMA longEMA : list number)
    (signalPeriod : Z) : result (list number) :=
  let macdLine := macd_macdLine shortEMA longEMA in
  ema
    (mapi (fun value i =>
             {| candle := get candles (i + len longEMA - len shortEMA);
                macdLine := value |}) macdLine)
    signalPeriod key_macdLine.

(** [macd(candles, shortEMA, longEMA, signalPeriod)] *)
Definition macd (candles : list Candle.t) (shortEMA longEMA : list number)
    (signalPeriod : Z) : result (list number) :=
  let macdLine := macd_macdLine shortEMA longEMA in
  signalLine <- macd_signalLine candles shortEMA longEMA signalPeriod ;;
  Ok (mapi (fun value i => value - signalLine.[i]) macdLine).

Record CryptoDataPoint : Type := {
  timestamp : number;
  high : number;
  low : number;
  close : number;
  volume : number
}.

(** [moneyFlowVolume] of one bar. *)
Definition moneyFlowVolume (currentData : CryptoDataPoint) : number :=
  let moneyFlowMultiplier :=
    (close currentData - low currentData
     - (high currentData - close currentData))
    / (high currentData - low currentData) in
  moneyFlowMultiplier * volume currentData.

(** The body of the loop of [calculateAD] once [currentData] is read; the
    state is [(prevAD, ad)]. *)
Definition ad_step (st : number * list number) (currentData : CryptoDataPoint)
    : number * list number :=
  let '(prevAD, ad) := st in
  let currentAD := prevAD + moneyFlowVolume currentData in
  (currentAD, push ad currentAD).

(** [calculateAD(cryptoData)].  The loop reads [cryptoData[i]] only for
    [i < cryptoData.length], where the element exists. *)
Definition calculateAD (cryptoData : list CryptoDataPoint) : list number :=
  snd (for_lt 0 (len cryptoData)
         (fun i st =>
            match get cryptoData i with
            | Some currentData => ad_step st currentData
            | None => st
            end)
         (zero, [])).

(* ------------------------------------------------------------------ *)
(** ** Vocabulary of the specification *)

(** The counter values [lo, lo + 1, ..., lo + k - 1] of a loop. *)
Fixpoint zrange (lo : Z) (k : nat) : list Z :=
  match k with
  | O => []
  | S k' => lo :: zrange (lo + 1)%Z k'
  end.

(** Sum and arithmetic mean of a series. *)
Definition series_sum (l : list number) : number := fold_left add l zero.

Definition mean (l : list number) : number := series_sum l / of_Z (len l).

(** The elements [data[lo], ..., data[hi]] (both ends included), for
    [0 <= lo]. *)
Definition window (data : list number) (lo hi : Z) : list number :=
  firstn (Z.to_nat (hi - lo + 1)) (skipn (Z.to_nat lo) data).

(** The last [n] elements of a series. *)
Definition last_n (data : list number) (n : Z) : list number :=
  skipn (length data - Z.to_nat n) data.

(** Population variance and standard deviation of a series. *)
Definition population_variance (l : list number) : number :=
  series_sum (map (fun v => (v - mean l) * (v - mean l)) l) / of_Z (len l).

Definition population_std (sqrtQ : Qc -> Qc) (l : list number) : number :=
  Math_sqrt sqrtQ (population_variance l).

(** A series without [NaN] and without infinities. *)
Definition all_finite (l : list number) : Prop := Forall is_finite l.

(** Each value is smaller than the next one. *)
Fixpoint strictly_increasing (l : list number) : Prop :=
  match l with
  | [] => True
  | x :: rest =>
      match rest with
      | [] => True
      | y :: _ => (x <? y) = true /\ strictly_increasing rest
      end
  end.

(** Equality test on series, used to evaluate closed examples. *)
Fixpoint series_eqb (l1 l2 : list number) : bool :=
  match l1, l2 with
  | [], [] => true
  | x :: r1, y :: r2 => eqb x y && series_eqb r1 r2
  | _, _ => false
  end.

Definition error_eqb (e1 e2 : error) : bool :=
  match e1, e2 with
  | NotEnoughDataPoints, NotEnoughDataPoints => true
  | ReduceOfEmptyArray, ReduceOfEmptyArray => true
  | _, _ => false
  end.

Definition result_eqb (r1 r2 : result (list number)) : bool :=
  match r1, r2 with
  | Ok l1, Ok l2 => series_eqb l1 l2
  | Throw e1, Throw e2 => error_eqb e1 e2
  | _, _ => false
  end.

(** The series of the integers of a list. *)
Definition ints (l : list Z) : list number := map of_Z l.

(** Sum of a list of rationals. *)
Fixpoint qsum (qs : list Qc) : Qc :=
  match qs with
  | [] => Q2Qc 0
  | q :: rest => Qcplus q (qsum rest)
  end.

(** The sum of the first [k] elements of a list of rationals. *)
Definition prefix_sum (qs : list Qc) (k : nat) : Qc := qsum (firstn k qs).

(** The rational of an integer. *)
Definition qc_of_Z (z : Z) : Qc := Q2Qc (inject_Z z).

(** Mean of a list of rationals. *)
Definition qmean (qs : list Qc) : Qc :=
  Qcdiv (qsum qs) (qc_of_Z (Z.of_nat (length qs))).

(** A finite number above zero. *)
Definition positive (x : number) : Prop :=
  exists q : Qc, x = Fin q /\ Qclt (Q2Qc 0) q.

(** The running totals of the money-flow volumes of a series of bars,
    starting from the total [prev]. *)
Fixpoint ad_running (prev : number) (bars : list CryptoDataPoint) : list number :=
  match bars with
  | [] => []
  | bar :: rest =>
      let current := prev + moneyFlowVolume bar in
      current :: ad_running current rest
  end.

(** [AD[i-1]], with [AD[-1] = 0]. *)
Definition AD_prev (ad : list number) (i : Z) : number :=
  if (i =? 0)%Z then zero else ad.[(i - 1)%Z].

(** The record whose three bands are [NaN]. *)
Definition nan_bands : BollingerBandsResult :=
  {| upperBand := NaN; middleBand := NaN; lowerBand := NaN |}.


(** A finite number that is not below zero. *)
Definition nonnegative (x : number) : Prop :=
  exists q : Qc, x = Fin q /\ Qcle (Q2Qc 0) q.


(** [NaN], or a finite number between 0 and 100. *)
Definition NaN_or_percentage (x : number) : Prop :=
  x = NaN
  \/ exists r : Qc, x = Fin r /\ Qcle (Q2Qc 0) r /\ Qcle r (qc_of_Z 100).

(** The [prices] array of [ema]. *)
Definition ema_prices (candles : list CandleWithMacdLine) (key : CandleKey)
    : list number :=
  map (fun candle => to_number (field candle key)) candles.

(** The smoothing factor [2 / (period + 1)] of [ema]. *)
Definition ema_alpha (period : Z) : number := two / of_Z (period + 1).

(** The running sum [simpleMovingAverage] holds when it pushes output [j],
    built by the additions and subtractions of the loop in their order: for
    [j = 0] the first [n + 1] prices added up from 0, less the first price;
    afterwards the previous running sum, plus the price that enters the
    window, less the price that leaves it. *)
Fixpoint sma_window_sum (closePrices : list number) (n : Z) (j : nat) : number :=
  match j with
  | O => series_sum (firstn (Z.to_nat n + 1) closePrices) - closePrices.[0%Z]
  | S j' =>
      sma_window_sum closePrices n j' + closePrices.[(n + Z.of_nat j' + 1)%Z]
      - closePrices.[(Z.of_nat j' + 1)%Z]
  end.

(** The sum of the absolute values of a list of integers. *)
Definition abs_total (zs : list Z) : Z :=
  fold_right (fun z acc => (Z.abs z + acc)%Z) 0%Z zs.

(** [2 ^ 53].  Every integer of at most this magnitude is a double, so
    sums and differences of integers that stay within it are computed
    without rounding. *)
Definition exact_integer_range : Z := 2 ^ 53.

(** A number above zero: a finite positive number or [Infinity]. *)
Definition above_zero (x : number) : Prop := (zero <? x) = true.


(** [NaN], [Infinity], or a finite number that is not below zero: what a
    sum of absolute values, or a square root, can be. *)
Definition never_negative (x : number) : Prop :=
  x = NaN \/ x = PInf \/ nonnegative x.

(** A finite number whose absolute value is at most [b]. *)
Definition magnitude_at_most (b : Z) (x : number) : Prop :=
  exists q : Qc, x = Fin q /\ (Qcabs q <= qc_of_Z b)%Qc.

(** [2 ^ 1022].  The difference of two numbers of at most this magnitude is
    at most [2 ^ 1023] in absolute value, which is below the largest
    double: as doubles, such numbers have finite differences. *)
Definition half_range : Z := 2 ^ 1022.

(** The three bands are in order, or one of them is [NaN]. *)
Definition ordered_or_NaN (r : BollingerBandsResult) : Prop :=
  ((lowerBand r <=? middleBand r) = true /\ (middleBand r <=? upperBand r) = true)
  \/ lowerBand r = NaN \/ middleBand r = NaN \/ upperBand r = NaN.

(* ------------------------------------------------------------------ *)
(** ** Lemmas on arrays and loops *)

Section ArrayLemmas.
Context {A : Type}.
Implicit Types (l : list A) (i : Z).

Lemma len_nonneg l : (0 <= len l)%Z.
Proof. unfold len. lia. Qed.

Lemma length_slice l (a b : Z) :
  length (slice l a b)
  = Z.to_nat (Z.min (rel_index (len l) b - rel_index (len l) a)
                    (len l - rel_index (len l) a)).
Proof.
  unfold slice. cbv zeta.
  rewrite length_firstn, length_skipn.
  unfold rel_index, len.
  destruct (a <? 0)%Z eqn:Ha; destruct (b <? 0)%Z eqn:Hb; lia.
Qed.

(** Inside the array, [slice] is the plain sub-list. *)
Lemma slice_inside l (a b : Z) :
  (0 <= a)%Z -> (a <= b)%Z -> (b <= len l)%Z ->
  slice l a b = firstn (Z.to_nat (b - a)) (skipn (Z.to_nat a) l).
Proof.
  intros Ha Hab Hb. unfold slice, rel_index. cbv zeta.
  assert (Ea : (a <? 0)%Z = false) by lia.
  assert (Eb : (b <? 0)%Z = false) by lia.
  rewrite Ea, Eb.
  replace (Z.min a (len l)) with a by lia.
  replace (Z.min b (len l)) with b by lia.
  reflexivity.
Qed.

Lemma len_slice_from l (d : Z) :
  len (slice_from l d)
  = if (d <? 0)%Z then Z.min (- d) (len l) else Z.max 0 (len l - d).
Proof.
  unfold slice_from. unfold len at 1. rewrite length_slice.
  pose proof (len_nonneg l) as Hl.
  unfold rel_index.
  assert (El : (len l <? 0)%Z = false) by lia.
  rewrite El.
  destruct (d <? 0)%Z eqn:Hd; lia.
Qed.

Lemma get_in_range l i :
  (0 <= i < len l)%Z -> exists x, get l i = Some x.
Proof.
  intros Hi. unfold get.
  assert (E : (i <? 0)%Z = false) by lia. rewrite E.
  destruct (nth_error l (Z.to_nat i)) as [x|] eqn:Hx.
  - now exists x.
  - apply nth_error_None in Hx. unfold len in Hi. lia.
Qed.

Lemma get_out_of_range l i :
  (i < 0 \/ len l <= i)%Z -> get l i = None.
Proof.
  intros Hi. unfold get.
  destruct (i <? 0)%Z eqn:E; [reflexivity|].
  apply nth_error_None. unfold len in Hi. lia.
Qed.

Lemma get_cons_succ (x : A) l i :
  (0 <= i)%Z -> get (x :: l) (i + 1) = get l i.
Proof.
  intros Hi. unfold get.
  assert (E1 : (i + 1 <? 0)%Z = false) by lia.
  assert (E2 : (i <? 0)%Z = false) by lia.
  rewrite E1, E2.
  replace (Z.to_nat (i + 1)) with (S (Z.to_nat i)) by lia.
  reflexivity.
Qed.

End ArrayLemmas.

Section LoopLemmas.
Context {St : Type}.

Lemma iterate_snoc (k : nat) (i : Z) (body : Z -> St -> St) (s : St) :
  iterate (S k) i body s = body (i + Z.of_nat k)%Z (iterate k i body s).
Proof.
  revert i s. induction k as [|k IH]; intros i s.
  - simpl. now rewrite Z.add_0_r.
  - change (iterate (S (S k)) i body s)
      with (iterate (S k) (i + 1) body (body i s)).
    rewrite IH. simpl iterate.
    replace (i + 1 + Z.of_nat k)%Z with (i + Z.of_nat (S k))%Z by lia.
    reflexivity.
Qed.

(** The invariant rule of a counted loop: [Inv j] holds of the state
    after [j] rounds. *)
Lemma iterate_invariant (Inv : nat -> St -> Prop) (k : nat) (i : Z)
    (body : Z -> St -> St) (s : St) :
  Inv O s ->
  (forall j st, (j < k)%nat -> Inv j st ->
                Inv (S j) (body (i + Z.of_nat j)%Z st)) ->
  Inv k (iterate k i body s).
Proof.
  intros H0 Hstep. induction k as [|k IH].
  - exact H0.
  - rewrite iterate_snoc. apply Hstep; [lia|].
    apply IH. intros j st Hj. apply Hstep. lia.
Qed.

End LoopLemmas.

Lemma length_zrange (lo : Z) (k : nat) : length (zrange lo k) = k.
Proof. revert lo. induction k; intros; simpl; auto. Qed.

Lemma zrange_snoc (lo : Z) (k : nat) :
  zrange lo (S k) = zrange lo k ++ [(lo + Z.of_nat k)%Z].
Proof.
  revert lo. induction k as [|k IH]; intros lo.
  - simpl. now rewrite Z.add_0_r.
  - change (zrange lo (S (S k))) with (lo :: zrange (lo + 1) (S k)).
    rewrite IH.
    change (zrange lo (S k)) with (lo :: zrange (lo + 1) k).
    rewrite Nat2Z.inj_succ. simpl app. do 3 f_equal. lia.
Qed.

Lemma nth_error_zrange (lo : Z) (k j : nat) :
  (j < k)%nat -> nth_error (zrange lo k) j = Some (lo + Z.of_nat j)%Z.
Proof.
  revert lo j. induction k as [|k IH]; intros lo j Hj; [lia|].
  destruct j as [|j]; simpl.
  - now rewrite Z.add_0_r.
  - rewrite IH by lia. f_equal. lia.
Qed.

(** A loop that pushes one value per round builds the image of its counter
    values. *)
Lemma iterate_push {B : Type} (f : Z -> B) (k : nat) (i : Z) (acc : list B) :
  iterate k i (fun j acc => push acc (f j)) acc = acc ++ map f (zrange i k).
Proof.
  revert i acc. induction k as [|k IH]; intros i acc; simpl.
  - now rewrite app_nil_r.
  - rewrite IH. unfold push. now rewrite <- app_assoc.
Qed.

Lemma get_map_zrange {B : Type} (f : Z -> B) (k : nat) (i : Z) :
  (0 <= i < Z.of_nat k)%Z -> get (map f (zrange 0 k)) i = Some (f i).
Proof.
  intros Hi. unfold get.
  assert (E : (i <? 0)%Z = false) by lia. rewrite E.
  rewrite nth_error_map, nth_error_zrange by lia.
  simpl. f_equal. f_equal. lia.
Qed.

Lemma length_mapi_from {A B : Type} (f : A -> Z -> B) (i0 : Z) (l : list A) :
  length (mapi_from f i0 l) = length l.
Proof. revert i0. induction l; intros; simpl; auto. Qed.

Lemma len_mapi {A B : Type} (f : A -> Z -> B) (l : list A) :
  len (mapi f l) = len l.
Proof. unfold len, mapi. now rewrite length_mapi_from. Qed.

Lemma nth_error_mapi_from {A B : Type} (f : A -> Z -> B) (i0 : Z) (l : list A)
    (j : nat) :
  nth_error (mapi_from f i0 l) j
  = option_map (fun x => f x (i0 + Z.of_nat j)%Z) (nth_error l j).
Proof.
  revert i0 j. induction l as [|x l IH]; intros i0 j.
  - now destruct j.
  - destruct j as [|j]; simpl.
    + now rewrite Z.add_0_r.
    + rewrite IH. destruct (nth_error l j); simpl; [|reflexivity].
      do 2 f_equal. lia.
Qed.

Lemma get_mapi {A B : Type} (f : A -> Z -> B) (l : list A) (i : Z) :
  get (mapi f l) i = option_map (fun x => f x i) (get l i).
Proof.
  unfold get, mapi. destruct (i <? 0)%Z eqn:E; [reflexivity|].
  rewrite nth_error_mapi_from.
  replace (0 + Z.of_nat (Z.to_nat i))%Z with i by lia.
  reflexivity.
Qed.

Lemma slice_from_nonneg {A : Type} (l : list A) (d : Z) :
  (0 <= d)%Z -> slice_from l d = skipn (Z.to_nat d) l.
Proof.
  intros Hd. unfold slice_from, slice, rel_index. cbv zeta.
  pose proof (len_nonneg l) as Hl.
  assert (E1 : (d <? 0)%Z = false) by lia.
  assert (E2 : (len l <? 0)%Z = false) by lia.
  rewrite E1, E2. rewrite Z.min_id.
  destruct (Z_le_gt_dec d (len l)) as [Hle|Hgt].
  - replace (Z.min d (len l)) with d by lia.
    apply firstn_all2. rewrite length_skipn. unfold len in *. lia.
  - replace (Z.min d (len l)) with (len l) by lia.
    rewrite Z.sub_diag. simpl firstn.
    symmetry. apply skipn_all2. unfold len in *. lia.
Qed.

(* ------------------------------------------------------------------ *)
(** ** Lemmas on numbers *)

Lemma eqb_eq (x y : number) : eqb x y = true -> x = y.
Proof.
  destruct x, y; simpl; try discriminate; try reflexivity.
  intros H. f_equal. now apply Qc_eq_bool_correct.
Qed.

Lemma eqb_refl (x : number) : eqb x x = true.
Proof.
  destruct x; simpl; try reflexivity.
  unfold Qc_eq_bool. destruct (Qc_eq_dec q q); congruence.
Qed.

Lemma eqb_neq (x y : number) : eqb x y = false -> x <> y.
Proof. intros H E. subst y. rewrite eqb_refl in H. discriminate. Qed.

Lemma series_eqb_eq (l1 l2 : list number) : series_eqb l1 l2 = true -> l1 = l2.
Proof.
  revert l2. induction l1 as [|x l1 IH]; intros [|y l2]; simpl;
    try discriminate; try reflexivity.
  intros H. apply andb_prop in H as [Hx Hl].
  f_equal; [now apply eqb_eq | now apply IH].
Qed.

Lemma result_eqb_eq (r1 r2 : result (list number)) :
  result_eqb r1 r2 = true -> r1 = r2.
Proof.
  destruct r1 as [l1|e1], r2 as [l2|e2]; simpl; try discriminate.
  - intros H. f_equal. now apply series_eqb_eq.
  - destruct e1, e2; simpl; try discriminate; reflexivity.
Qed.

Lemma add_zero_l (x : number) : zero + x = x.
Proof.
  destruct x; try reflexivity.
  unfold zero, of_Z, of_Q. simpl. f_equal. apply Qcplus_0_l.
Qed.

Lemma series_sum_cons (x : number) (l : list number) :
  series_sum (x :: l) = fold_left add l x.
Proof.
  unfold series_sum.
  change (fold_left add (x :: l) zero) with (fold_left add l (zero + x)).
  now rewrite add_zero_l.
Qed.

(** [reduce] with the callback [(a, b) => a + b] and no initial value gives
    the sum of a non-empty array. *)
Lemma reduce1_add (l : list number) :
  l <> [] -> reduce1 (fun a b => a + b) l = Ok (series_sum l).
Proof.
  destruct l as [|x l]; [congruence|]. intros _.
  simpl. now rewrite series_sum_cons.
Qed.

Lemma fold_left_add_map {A : Type} (f : A -> number) (l : list A) (z : number) :
  fold_left (fun acc v => acc + f v) l z = fold_left add (map f l) z.
Proof. revert z. induction l as [|x l IH]; intros z; simpl; auto. Qed.

(* ------------------------------------------------------------------ *)
(** ** movingAverage *)

Lemma last_n_slice (data : list number) (N : Z) :
  (0 <= N <= len data)%Z -> slice_from data (len data - N) = last_n data N.
Proof.
  intros HN. rewrite slice_from_nonneg by lia.
  unfold last_n. f_equal. unfold len in *. lia.
Qed.

Lemma len_last_n (data : list number) (N : Z) :
  (0 <= N <= len data)%Z -> len (last_n data N) = N.
Proof.
  intros HN. unfold last_n, len in *. rewrite length_skipn. lia.
Qed.

(** C1, as the code has it.  [movingAverage (data, N)] fails with the
    "Not enough data points" error exactly when [data.length < N]; for
    [N <= 0] (where [data.length >= N] always holds) the guard does not fire
    and the call fails with the [TypeError] of [reduce] on the empty slice;
    for [0 < N <= data.length] it returns the arithmetic mean of the last [N]
    elements.  In particular [movingAverage ([2,4,6,8,10], 3) = 8] and
    [movingAverage ([2,4], 3)] fails with the "Not enough data points"
    error. *)
Theorem movingAverage_spec :
  (forall (data : list number) (N : Z),
      movingAverage data N
      = if (len data <? N)%Z then Throw NotEnoughDataPoints
        else if (N <=? 0)%Z then Throw ReduceOfEmptyArray
        else Ok (mean (last_n data N)))
  /\ movingAverage (ints [2; 4; 6; 8; 10]%Z) 3 = Ok (of_Z 8)
  /\ movingAverage (ints [2; 4]%Z) 3 = Throw NotEnoughDataPoints.
Proof.
  assert (Hgen : forall (data : list number) (N : Z),
      movingAverage data N
      = if (len data <? N)%Z then Throw NotEnoughDataPoints
        else if (N <=? 0)%Z then Throw ReduceOfEmptyArray
        else Ok (mean (last_n data N))).
  { intros data N. unfold movingAverage.
    destruct (len data <? N)%Z eqn:Hlen; [reflexivity|].
    apply Z.ltb_ge in Hlen.
    pose proof (len_nonneg data) as Hl.
    destruct (N <=? 0)%Z eqn:HN.
    - apply Z.leb_le in HN.
      rewrite slice_from_nonneg by lia.
      rewrite skipn_all2 by (unfold len in *; lia).
      reflexivity.
    - apply Z.leb_gt in HN.
      rewrite last_n_slice by lia.
      rewrite reduce1_add.
      + simpl. unfold mean. now rewrite len_last_n by lia.
      + intros E. pose proof (len_last_n data N ltac:(lia)) as HlN.
        rewrite E in HlN. unfold len in HlN. simpl in HlN. lia. }
  split; [exact Hgen|]. split.
  - rewrite Hgen. simpl. f_equal. apply eqb_eq. vm_compute. reflexivity.
  - reflexivity.
Qed.

(** C1 does not hold as stated: for [N = 0] the precondition is violated,
    yet the failure is the [TypeError] of [reduce], not the "Not enough
    data points" error. *)
Lemma movingAverage_nonpositive_N_counterexample :
  let data := ints [2; 4]%Z in
  let N := 0%Z in
  (len data < N \/ N <= 0)%Z
  /\ movingAverage data N = Throw ReduceOfEmptyArray
  /\ movingAverage data N <> Throw NotEnoughDataPoints.
Proof.
  cbv zeta. split; [right; lia|]. split; [reflexivity|].
  assert (E : movingAverage (ints [2; 4]%Z) 0 = Throw ReduceOfEmptyArray)
    by reflexivity.
  rewrite E. discriminate.
Qed.

(* ------------------------------------------------------------------ *)
(** ** Finite series and exact sums *)

Lemma all_finite_map (l : list number) :
  all_finite l -> exists qs, l = map Fin qs.
Proof.
  induction 1 as [|x l Hx _ [qs IH]].
  - now exists [].
  - destruct x as [q| | |]; try contradiction.
    exists (q :: qs). simpl. now rewrite IH.
Qed.

Lemma fold_left_add_Fin (qs : list Qc) (a : Qc) :
  fold_left add (map Fin qs) (Fin a) = Fin (a + qsum qs)%Qc.
Proof.
  revert a. induction qs as [|q qs IH]; intros a; simpl.
  - now rewrite Qcplus_0_r.
  - rewrite IH. now rewrite Qcplus_assoc.
Qed.

Lemma series_sum_Fin (qs : list Qc) : series_sum (map Fin qs) = Fin (qsum qs).
Proof.
  unfold series_sum, zero, of_Z, of_Q. rewrite fold_left_add_Fin.
  f_equal. apply Qcplus_0_l.
Qed.

Lemma qc_of_Z_nonzero (z : Z) : z <> 0%Z -> is_zero (qc_of_Z z) = false.
Proof.
  intros Hz. unfold is_zero, Qc_eq_bool.
  destruct (Qc_eq_dec (qc_of_Z z) (Q2Qc 0)) as [E|]; [|reflexivity].
  exfalso. apply Hz. unfold qc_of_Z in E.
  apply Q2Qc_eq_iff in E. unfold Qeq in E. simpl in E. lia.
Qed.

Lemma div_Fin_of_Z (a : Qc) (z : Z) :
  z <> 0%Z -> Fin a / of_Z z = Fin (a / qc_of_Z z)%Qc.
Proof.
  intros Hz. unfold of_Z, of_Q. simpl.
  change (Q2Qc (inject_Z z)) with (qc_of_Z z).
  now rewrite qc_of_Z_nonzero.
Qed.

Lemma get_num_Fin (qs : list Qc) (k : nat) (q : Qc) :
  nth_error qs k = Some q -> (map Fin qs).[Z.of_nat k] = Fin q.
Proof.
  intros Hk. unfold get_num, get.
  assert (E : (Z.of_nat k <? 0)%Z = false) by (apply Z.ltb_ge; lia).
  rewrite E, Nat2Z.id, nth_error_map, Hk. reflexivity.
Qed.

Lemma nth_error_in_range {A : Type} (l : list A) (k : nat) :
  (k < length l)%nat -> exists x, nth_error l k = Some x.
Proof.
  intros Hk. destruct (nth_error l k) as [x|] eqn:E.
  - now exists x.
  - apply nth_error_None in E. lia.
Qed.

(* ------------------------------------------------------------------ *)
(** ** simpleMovingAverage *)

Lemma sma_step_length (c : list number) (n i : Z) (st : number * list number) :
  length (snd (sma_step c n i st))
  = if (i >=? n)%Z then S (length (snd st)) else length (snd st).
Proof.
  destruct st as [sum sma]. unfold sma_step.
  destruct (i >=? n)%Z; simpl; [|reflexivity].
  unfold push. rewrite length_app. simpl. lia.
Qed.

Lemma sma_iterate_length (c : list number) (n : Z) (k : nat) (i : Z)
    (st : number * list number) :
  length (snd (iterate k i (sma_step c n) st))
  = (length (snd st) + Z.to_nat (i + Z.of_nat k - Z.max i n))%nat.
Proof.
  revert i st. induction k as [|k IH]; intros i st.
  - simpl. lia.
  - change (iterate (S k) i (sma_step c n) st)
      with (iterate k (i + 1) (sma_step c n) (sma_step c n i st)).
    rewrite IH, sma_step_length.
    destruct (i >=? n)%Z eqn:E; lia.
Qed.

Lemma simpleMovingAverage_length (c : list number) (n : Z) :
  len (simpleMovingAverage c n)
  = if (n <=? 0)%Z then len c else Z.max 0 (len c - n).
Proof.
  unfold simpleMovingAverage, for_lt. unfold len at 1.
  rewrite sma_iterate_length. simpl snd. simpl length.
  pose proof (len_nonneg c) as Hl.
  rewrite Z.sub_0_r. rewrite Z2Nat.id by lia.
  destruct (n <=? 0)%Z eqn:E; lia.
Qed.

Lemma window_Fin (qs : list Qc) (lo hi : Z) :
  window (map Fin qs) lo hi
  = map Fin (firstn (Z.to_nat (hi - lo + 1)) (skipn (Z.to_nat lo) qs)).
Proof. unfold window. now rewrite skipn_map, firstn_map. Qed.

Example simpleMovingAverage_example :
  simpleMovingAverage (ints [10; 20; 30; 40; 50]%Z) 3 = ints [30; 40]%Z.
Proof. apply series_eqb_eq. vm_compute. reflexivity. Qed.

(* ------------------------------------------------------------------ *)
(** ** MAD *)

Lemma MAD_map (numbers : list number) (windowSize : Z) :
  MAD numbers windowSize
  = map (mad_value numbers windowSize)
      (zrange 0 (Z.to_nat (len numbers - windowSize + 1))).
Proof.
  unfold MAD, for_le, for_lt. rewrite iterate_push. simpl app.
  do 2 f_equal. lia.
Qed.

Lemma MAD_length (numbers : list number) (windowSize : Z) :
  len (MAD numbers windowSize) = Z.max 0 (len numbers - windowSize + 1).
Proof.
  rewrite MAD_map. unfold len at 1. rewrite length_map, length_zrange. lia.
Qed.

(** C6, as the code has it.  [MAD (numbers, windowSize)] has
    [numbers.length - windowSize + 1] elements whenever
    [windowSize <= numbers.length], also for [windowSize <= 0], where that
    number is at least [numbers.length + 1]; it is empty exactly when
    [windowSize > numbers.length].  It is a total function: there is no
    failure path. *)
Theorem MAD_spec (numbers : list number) (windowSize : Z) :
  ((windowSize <= len numbers)%Z ->
   len (MAD numbers windowSize) = (len numbers - windowSize + 1)%Z)
  /\ ((windowSize > len numbers)%Z -> MAD numbers windowSize = []).
Proof.
  pose proof (MAD_length numbers windowSize) as Hlen.
  split; intros Hw.
  - lia.
  - destruct (MAD numbers windowSize) as [|x l]; [reflexivity|].
    unfold len in Hlen at 1. simpl in Hlen. lia.
Qed.

Lemma MAD_spec_witness :
  (2 <= len (ints [1; 2; 4; 8]%Z))%Z
  /\ len (MAD (ints [1; 2; 4; 8]%Z) 2) = (len (ints [1; 2; 4; 8]%Z) - 2 + 1)%Z
  /\ (3 > len (ints [1; 2]%Z))%Z
  /\ MAD (ints [1; 2]%Z) 3 = [].
Proof.
  assert (H1 : (2 <= len (ints [1; 2; 4; 8]%Z))%Z) by (vm_compute; discriminate).
  assert (H2 : (3 > len (ints [1; 2]%Z))%Z) by (vm_compute; reflexivity).
  split; [exact H1|].
  split; [exact (proj1 (MAD_spec (ints [1; 2; 4; 8]%Z) 2) H1)|].
  split; [exact H2|].
  exact (proj2 (MAD_spec (ints [1; 2]%Z) 3) H2).
Defined.

(** C6 does not hold as stated for [windowSize <= 0]: the loop bound
    [numbers.length - windowSize] is then at least [numbers.length], so the
    body runs and the result is not empty. *)
Lemma MAD_nonpositive_window_counterexample :
  MAD [] 0 = [NaN]
  /\ MAD [] 0 <> []
  /\ len (MAD (ints [1; 2]%Z) (-1)) = 4%Z.
Proof.
  assert (E : MAD [] 0 = [NaN]) by reflexivity.
  split; [exact E|]. split; [rewrite E; discriminate|].
  vm_compute. reflexivity.
Qed.

(* ------------------------------------------------------------------ *)
(** ** rsi: length of the result *)

Lemma rsi_step_length (p : Z) (deltas : list number) (i : Z)
    (st : number * number * list number) :
  length (snd (rsi_step p deltas i st)) = S (length (snd st)).
Proof.
  destruct st as [[avgGain avgLoss] out]. unfold rsi_step. simpl.
  unfold push. rewrite length_app. simpl. lia.
Qed.

Lemma rsi_iterate_length (p : Z) (deltas : list number) (k : nat) (i : Z)
    (st : number * number * list number) :
  length (snd (iterate k i (rsi_step p deltas) st)) = (length (snd st) + k)%nat.
Proof.
  revert i st. induction k as [|k IH]; intros i st.
  - simpl. lia.
  - change (iterate (S k) i (rsi_step p deltas) st)
      with (iterate k (i + 1) (rsi_step p deltas) (rsi_step p deltas i st)).
    rewrite IH, rsi_step_length. lia.
Qed.

Lemma rsi_length (options : RSIOptions) :
  len (rsi options)
  = (1 + Z.max 0 (len (values options) - period options))%Z.
Proof.
  unfold rsi, rsi_run.
  destruct (rsi_seed (period options) (rsi_deltas (values options)))
    as [avgGain avgLoss].
  unfold for_lt, len at 1. rewrite rsi_iterate_length.
  cbn [snd length]. lia.
Qed.

(** C3, as the code has it.  For [values.length > period] and [period > 0]
    the result of [rsi] has [values.length - period + 1] elements: the value
    computed from the seed window, and one more for each index from
    [period] to [values.length - 1]. *)
Theorem rsi_length_spec (p : Z) (vals : list number) :
  (len vals > p)%Z -> (p > 0)%Z ->
  len (rsi {| period := p; values := vals |}) = (len vals - p + 1)%Z.
Proof.
  intros Hlen Hp. rewrite rsi_length. cbn [period values]. lia.
Qed.

Lemma rsi_length_spec_witness :
  len (rsi {| period := 2; values := ints [1; 2; 3; 2; 5]%Z |})
  = (len (ints [1; 2; 3; 2; 5]%Z) - 2 + 1)%Z.
Proof.
  apply (rsi_length_spec 2 (ints [1; 2; 3; 2; 5]%Z)).
  - vm_compute. reflexivity.
  - lia.
Defined.

(** C3 does not hold as stated: on three values with [period = 1] the
    preconditions hold and the result has three elements, not
    [values.length - period = 2]. *)
Lemma rsi_length_counterexample :
  let vals := ints [1; 2; 3]%Z in
  let p := 1%Z in
  (len vals > p)%Z /\ (p > 0)%Z
  /\ len (rsi {| period := p; values := vals |}) = 3%Z
  /\ len (rsi {| period := p; values := vals |}) <> (len vals - p)%Z.
Proof.
  cbv zeta. split; [vm_compute; reflexivity|]. split; [lia|].
  split; vm_compute; [reflexivity | discriminate].
Qed.

(* ------------------------------------------------------------------ *)
(** ** bollingerBands: shape of the result *)

Lemma mul_one_r (x : number) : x * one = x.
Proof.
  destruct x; try reflexivity.
  unfold one, of_Z, of_Q. simpl. f_equal. apply Qcmult_1_r.
Qed.

Lemma Math_pow_2 (x : number) : Math_pow x 2 = x * x.
Proof. simpl. now rewrite mul_one_r. Qed.

Lemma bollingerBands_map (sqrtQ : Qc -> Qc) (data : list number) (p : Z)
    (deviation : number) :
  bollingerBands sqrtQ data p deviation
  = map (bollinger_at sqrtQ data p deviation) (zrange 0 (length data)).
Proof.
  unfold bollingerBands, for_lt. rewrite iterate_push. simpl app.
  do 2 f_equal. unfold len. lia.
Qed.

(** Inside the series, the slice taken by [bollingerBands] at index [i] is
    the trailing window of [period] elements that ends at [i]. *)
Lemma bollinger_slice (data : list number) (p i : Z) :
  (1 <= p)%Z -> (p - 1 <= i < len data)%Z ->
  slice data (i - p + 1) (i + 1) = window data (i - p + 1) i
  /\ len (window data (i - p + 1) i) = p.
Proof.
  intros Hp Hi. rewrite slice_inside by lia. unfold window.
  replace (i + 1 - (i - p + 1))%Z with (i - (i - p + 1) + 1)%Z by lia.
  split; [reflexivity|].
  unfold len in *. rewrite length_firstn, length_skipn. lia.
Qed.

Lemma bollinger_at_window (sqrtQ : Qc -> Qc) (data : list number) (p i : Z)
    (deviation : number) :
  (1 <= p)%Z -> (p - 1 <= i < len data)%Z ->
  let w := window data (i - p + 1) i in
  bollinger_at sqrtQ data p deviation i
  = {| upperBand := mean w + deviation * population_std sqrtQ w;
       middleBand := mean w;
       lowerBand := mean w - deviation * population_std sqrtQ w |}.
Proof.
  intros Hp Hi w. unfold bollinger_at.
  assert (E : (i <? p - 1)%Z = false) by lia. rewrite E. cbv zeta.
  destruct (bollinger_slice data p i Hp Hi) as [-> Hlen]. fold w.
  assert (Hmean : reduce (fun acc val => acc + val) zero w / of_Z p = mean w).
  { unfold mean. fold w in Hlen. rewrite Hlen. reflexivity. }
  rewrite Hmean.
  assert (Hstd : Math_sqrt sqrtQ
                   (reduce (fun acc val => acc + Math_pow (val - mean w) 2) zero w
                    / of_Z p)
                 = population_std sqrtQ w).
  { unfold population_std, population_variance, reduce, series_sum.
    rewrite fold_left_add_map. fold w in Hlen. rewrite Hlen.
    do 3 f_equal. apply map_ext. intros v. apply Math_pow_2. }
  rewrite Hstd. reflexivity.
Qed.

Lemma bollingerBands_get (sqrtQ : Qc -> Qc) (data : list number) (p : Z)
    (deviation : number) (i : Z) :
  (0 <= i < len data)%Z ->
  get (bollingerBands sqrtQ data p deviation) i
  = Some (bollinger_at sqrtQ data p deviation i).
Proof.
  intros Hi. rewrite bollingerBands_map. unfold len in Hi.
  now rewrite get_map_zrange by lia.
Qed.

(** C5.  For [period >= 1], [bollingerBands (data, period, deviation)] has
    one record per element of [data]; at every index [i < period - 1] the
    three bands are [NaN]; at every index [i >= period - 1] the middle band
    is the mean of the trailing window [data[i-period+1 .. i]] and the upper
    and lower bands are that mean plus and minus [deviation] times the
    population standard deviation of the same window. *)
Theorem bollingerBands_spec (sqrtQ : Qc -> Qc) (data : list number) (p : Z)
    (deviation : number) :
  (1 <= p)%Z ->
  len (bollingerBands sqrtQ data p deviation) = len data
  /\ forall i : Z, (0 <= i < len data)%Z ->
       ((i < p - 1)%Z ->
        get (bollingerBands sqrtQ data p deviation) i = Some nan_bands)
       /\ ((i >= p - 1)%Z ->
           let w := window data (i - p + 1) i in
           get (bollingerBands sqrtQ data p deviation) i
           = Some {| upperBand := mean w + deviation * population_std sqrtQ w;
                     middleBand := mean w;
                     lowerBand := mean w - deviation * population_std sqrtQ w |}).
Proof.
  intros Hp. split.
  - rewrite bollingerBands_map. unfold len.
    now rewrite length_map, length_zrange.
  - intros i Hi. rewrite bollingerBands_get by exact Hi. split.
    + intros Hlt. f_equal. unfold bollinger_at.
      assert (E : (i <? p - 1)%Z = true) by lia. now rewrite E.
    + intros Hge w. f_equal.
      apply bollinger_at_window; [exact Hp | lia].
Qed.

Lemma bollingerBands_spec_witness :
  len (bollingerBands sqrt_floor (ints [1; 2; 3; 4; 9]%Z) 2 two)
  = len (ints [1; 2; 3; 4; 9]%Z)
  /\ get (bollingerBands sqrt_floor (ints [1; 2; 3; 4; 9]%Z) 2 two) 0
     = Some nan_bands
  /\ get (bollingerBands sqrt_floor (ints [1; 2; 3; 4; 9]%Z) 2 two) 4
     = Some {| upperBand := of_Q (23 # 2);
               middleBand := of_Q (13 # 2);
               lowerBand := of_Q (3 # 2) |}.
Proof.
  pose proof (bollingerBands_spec sqrt_floor (ints [1; 2; 3; 4; 9]%Z) 2 two
                ltac:(lia)) as [Hlen Hget].
  split; [exact Hlen|]. split.
  - apply (proj1 (Hget 0%Z ltac:(vm_compute; split; [discriminate|reflexivity]))).
    lia.
  - rewrite (proj2 (Hget 4%Z ltac:(vm_compute; split; [discriminate|reflexivity]))
               ltac:(lia)).
    reflexivity.
Defined.

(* ------------------------------------------------------------------ *)
(** ** calculateAD *)

Lemma ad_fold (bars : list CryptoDataPoint) (prev : number) (ad : list number) :
  snd (fold_left ad_step bars (prev, ad)) = ad ++ ad_running prev bars.
Proof.
  revert prev ad. induction bars as [|bar rest IH]; intros prev ad.
  - simpl. now rewrite app_nil_r.
  - change (fold_left ad_step (bar :: rest) (prev, ad))
      with (fold_left ad_step rest
              (prev + moneyFlowVolume bar,
               push ad (prev + moneyFlowVolume bar))).
    rewrite IH. unfold push. rewrite <- app_assoc. reflexivity.
Qed.

(** A loop over the indices of an array that only reads the element at its
    counter is a left fold over the array. *)
Lemma for_each_index {A St : Type} (f : St -> A -> St) (pre l : list A) (s : St) :
  iterate (length l) (len pre)
    (fun i st => match get (pre ++ l) i with
                 | Some x => f st x
                 | None => st
                 end) s
  = fold_left f l s.
Proof.
  revert pre s. induction l as [|x l IH]; intros pre s; [reflexivity|].
  cbn [length iterate fold_left].
  assert (Hget : get (pre ++ x :: l) (len pre) = Some x).
  { unfold get. pose proof (len_nonneg pre) as Hl.
    assert (E : (len pre <? 0)%Z = false) by lia. rewrite E.
    unfold len. rewrite Nat2Z.id, nth_error_app2 by lia.
    now rewrite Nat.sub_diag. }
  rewrite Hget.
  replace (len pre + 1)%Z with (len (pre ++ [x]))
    by (unfold len; rewrite length_app; simpl; lia).
  replace (pre ++ x :: l) with ((pre ++ [x]) ++ l)
    by (now rewrite <- app_assoc).
  apply IH.
Qed.

Lemma calculateAD_running (cryptoData : list CryptoDataPoint) :
  calculateAD cryptoData = ad_running zero cryptoData.
Proof.
  unfold calculateAD, for_lt.
  rewrite Z.sub_0_r. unfold len at 1. rewrite Nat2Z.id.
  rewrite (for_each_index ad_step [] cryptoData). now rewrite ad_fold.
Qed.

Lemma length_ad_running (prev : number) (bars : list CryptoDataPoint) :
  length (ad_running prev bars) = length bars.
Proof.
  revert prev. induction bars as [|bar rest IH]; intros prev; simpl; auto.
Qed.

Lemma get_zero_cons {A : Type} (x : A) (l : list A) : get (x :: l) 0 = Some x.
Proof. reflexivity. Qed.

Lemma get_pos_cons {A : Type} (x : A) (l : list A) (i : Z) :
  (0 < i)%Z -> get (x :: l) i = get l (i - 1).
Proof.
  intros Hi. replace i with (i - 1 + 1)%Z at 1 by lia.
  apply get_cons_succ. lia.
Qed.

(** Each running total is the one before it plus the money-flow volume of
    its bar; the first one starts from [prev]. *)
Lemma get_ad_running (bars : list CryptoDataPoint) (prev : number) (i : Z)
    (bar : CryptoDataPoint) :
  get bars i = Some bar ->
  get (ad_running prev bars) i
  = Some ((if (i =? 0)%Z then prev else (ad_running prev bars).[(i - 1)%Z])
          + moneyFlowVolume bar).
Proof.
  revert prev i. induction bars as [|b rest IH]; intros prev i Hget.
  - unfold get in Hget. destruct (i <? 0)%Z; [discriminate|].
    now destruct (Z.to_nat i).
  - assert (Hi : (0 <= i)%Z).
    { unfold get in Hget. destruct (i <? 0)%Z eqn:E; [discriminate | lia]. }
    destruct (Z.eq_dec i 0) as [->|Hnz].
    + rewrite get_zero_cons in Hget. injection Hget as ->. reflexivity.
    + rewrite get_pos_cons in Hget by lia.
      assert (E : (i =? 0)%Z = false) by lia. rewrite E.
      cbn [ad_running]. rewrite get_pos_cons by lia.
      rewrite (IH _ _ Hget). do 2 f_equal.
      unfold get_num.
      destruct (Z.eq_dec (i - 1) 0) as [E1|E1].
      * rewrite E1. reflexivity.
      * assert (E2 : (i - 1 =? 0)%Z = false) by lia. rewrite E2.
        rewrite (get_pos_cons _ _ (i - 1)) by lia. reflexivity.
Qed.

(** C7.  When every bar has [high <> low], [calculateAD (cryptoData)] has
    one element per bar, and element [i] is [AD[i-1] + moneyFlowVolume[i]]
    with [AD[-1] = 0], where [moneyFlowVolume[i]] is
    [(((close - low) - (high - close)) / (high - low)) * volume] of bar
    [i]. *)
Theorem calculateAD_spec (cryptoData : list CryptoDataPoint) :
  Forall (fun bar => high bar <> low bar) cryptoData ->
  len (calculateAD cryptoData) = len cryptoData
  /\ forall (i : Z) (bar : CryptoDataPoint),
       get cryptoData i = Some bar ->
       get (calculateAD cryptoData) i
       = Some (AD_prev (calculateAD cryptoData) i
               + ((close bar - low bar - (high bar - close bar))
                  / (high bar - low bar)) * volume bar).
Proof.
  intros _. rewrite calculateAD_running. split.
  - unfold len. now rewrite length_ad_running.
  - intros i bar Hget. unfold AD_prev.
    now rewrite (get_ad_running cryptoData zero i bar Hget).
Qed.

Lemma calculateAD_spec_witness :
  let bar0 := {| timestamp := of_Z 1; high := of_Z 10; low := of_Z 5;
                 close := of_Z 7; volume := of_Z 100 |} in
  let bar1 := {| timestamp := of_Z 2; high := of_Z 12; low := of_Z 8;
                 close := of_Z 11; volume := of_Z 50 |} in
  Forall (fun bar => high bar <> low bar) [bar0; bar1]
  /\ len (calculateAD [bar0; bar1]) = len [bar0; bar1]
  /\ get (calculateAD [bar0; bar1]) 1
     = Some (AD_prev (calculateAD [bar0; bar1]) 1
             + ((close bar1 - low bar1 - (high bar1 - close bar1))
                / (high bar1 - low bar1)) * volume bar1).
Proof.
  intros bar0 bar1.
  assert (H : Forall (fun bar => high bar <> low bar) [bar0; bar1]).
  { apply Forall_cons; [|apply Forall_cons; [|apply Forall_nil]];
      apply eqb_neq; vm_compute; reflexivity. }
  split; [exact H|].
  split; [exact (proj1 (calculateAD_spec [bar0; bar1] H))|].
  exact (proj2 (calculateAD_spec [bar0; bar1] H) 1%Z bar1 eq_refl).
Defined.

Example calculateAD_example :
  calculateAD
    [ {| timestamp := of_Z 1; high := of_Z 10; low := of_Z 5;
         close := of_Z 7; volume := of_Z 100 |};
      {| timestamp := of_Z 2; high := of_Z 12; low := of_Z 8;
         close := of_Z 11; volume := of_Z 50 |} ]
  = ints [-20; 5]%Z.
Proof. apply series_eqb_eq. vm_compute. reflexivity. Qed.

(* ------------------------------------------------------------------ *)
(** ** macd: alignment of the two EMA series *)

(** What the two slices of [macd] keep.  [macd] applies
    [slice (longEMA.length - shortEMA.length)] to both series.  With
    [s = shortEMA.length] and [l = longEMA.length], the sliced short series
    has [max (0, 2s - l)] elements when [s <= l] and [s - l] elements when
    [s > l]; the sliced long series has [s] elements when [s <= l] and
    [min (l, s - l)] when [s > l].  The macd line has the length of the
    sliced short series, and its element [i] is
    [shortEMA_aligned[i] - longEMA_aligned[i]] (the read of the long series
    giving [undefined], hence a [NaN] difference, where it is too short).
    When the two inputs have the same length both are left whole. *)
Lemma macd_slices (shortEMA longEMA : list number) :
  let s := len shortEMA in
  let l := len longEMA in
  let shortEMAValues := macd_shortEMAValues shortEMA longEMA in
  let longEMAValues := macd_longEMAValues shortEMA longEMA in
  let macdLine := macd_macdLine shortEMA longEMA in
  shortEMAValues = slice_from shortEMA (l - s)
  /\ longEMAValues = slice_from longEMA (l - s)
  /\ len shortEMAValues = (if (s <=? l)%Z then Z.max 0 (2 * s - l) else s - l)%Z
  /\ len longEMAValues = (if (s <=? l)%Z then s else Z.min l (s - l))%Z
  /\ len macdLine = len shortEMAValues
  /\ (forall i : Z,
        get macdLine i
        = option_map (fun ema => ema - longEMAValues.[i]) (get shortEMAValues i))
  /\ (s = l ->
      shortEMAValues = shortEMA /\ longEMAValues = longEMA
      /\ len macdLine = Z.min s l).
Proof.
  intros s l shortEMAValues longEMAValues macdLine.
  pose proof (len_nonneg shortEMA) as Hs. pose proof (len_nonneg longEMA) as Hl.
  fold s in Hs. fold l in Hl.
  assert (Hshort : len shortEMAValues
                   = (if (s <=? l)%Z then Z.max 0 (2 * s - l) else s - l)%Z).
  { unfold shortEMAValues, macd_shortEMAValues. rewrite len_slice_from.
    fold s l. destruct (l - s <? 0)%Z eqn:E1; destruct (s <=? l)%Z eqn:E2; lia. }
  assert (Hlong : len longEMAValues
                  = (if (s <=? l)%Z then s else Z.min l (s - l))%Z).
  { unfold longEMAValues, macd_longEMAValues. rewrite len_slice_from.
    fold s l. destruct (l - s <? 0)%Z eqn:E1; destruct (s <=? l)%Z eqn:E2; lia. }
  assert (Hline : len macdLine = len shortEMAValues).
  { unfold macdLine, macd_macdLine. cbv zeta. apply len_mapi. }
  split; [reflexivity|]. split; [reflexivity|].
  split; [exact Hshort|]. split; [exact Hlong|]. split; [exact Hline|].
  split.
  - intros i. unfold macdLine, macd_macdLine. cbv zeta.
    rewrite get_mapi. reflexivity.
  - intros Heq.
    assert (E1 : shortEMAValues = shortEMA).
    { unfold shortEMAValues, macd_shortEMAValues. fold s l.
      rewrite Heq, Z.sub_diag. now rewrite slice_from_nonneg by lia. }
    assert (E2 : longEMAValues = longEMA).
    { unfold longEMAValues, macd_longEMAValues. fold s l.
      rewrite Heq, Z.sub_diag. now rewrite slice_from_nonneg by lia. }
    split; [exact E1|]. split; [exact E2|].
    rewrite Hline, E1. fold s. lia.
Qed.

(** The macd line has the length of the shorter input in three cases only:
    inputs of equal length, a short series twice as long as the long one,
    and an empty short series. *)
Lemma macd_line_length_min (shortEMA longEMA : list number) :
  len (macd_macdLine shortEMA longEMA) = Z.min (len shortEMA) (len longEMA)
  <-> (len shortEMA = len longEMA
       \/ len shortEMA = (2 * len longEMA)%Z
       \/ len shortEMA = 0%Z).
Proof.
  pose proof (macd_slices shortEMA longEMA) as H. cbv zeta in H.
  destruct H as (_ & _ & Hs & _ & Hline & _).
  pose proof (len_nonneg shortEMA). pose proof (len_nonneg longEMA).
  rewrite Hline, Hs.
  destruct (len shortEMA <=? len longEMA)%Z eqn:E; lia.
Qed.

(* ------------------------------------------------------------------ *)
(** ** ema, and the length of the result of macd *)

Lemma ema_iterate_length (prices : list number) (p : Z) (k : nat) (i : Z)
    (st : number * list number) :
  length (snd (iterate k i (ema_step prices p) st)) = (length (snd st) + k)%nat.
Proof.
  revert i st. induction k as [|k IH]; intros i st.
  - simpl. lia.
  - change (iterate (S k) i (ema_step prices p) st)
      with (iterate k (i + 1) (ema_step prices p) (ema_step prices p i st)).
    rewrite IH. destruct st as [e arr]. unfold ema_step. cbn [snd].
    unfold push. rewrite length_app. simpl. lia.
Qed.

(** When [ema] returns, its result has the seed value and one value per
    index from [period] to [candles.length - 1]. *)
Lemma ema_length (candles : list CandleWithMacdLine) (p : Z) (key : CandleKey)
    (out : list number) :
  ema candles p key = Ok out ->
  len out = (1 + Z.max 0 (len candles - p))%Z.
Proof.
  unfold ema. cbv zeta.
  destruct (reduce1 _ _) as [sum|e]; cbn [bind]; [|discriminate].
  intros H. injection H as <-.
  unfold for_lt, len at 1. rewrite ema_iterate_length. cbn [snd length].
  unfold len. rewrite length_map. lia.
Qed.

(** [ema] returns as soon as the seed window is not empty. *)
Lemma ema_returns (candles : list CandleWithMacdLine) (p : Z) (key : CandleKey) :
  (1 <= p)%Z -> (1 <= len candles)%Z -> exists out, ema candles p key = Ok out.
Proof.
  intros Hp Hlen. unfold ema. cbv zeta.
  set (prices := map (fun candle => to_number (field candle key)) candles).
  assert (Hprices : len prices = len candles)
    by (unfold len, prices; now rewrite length_map).
  destruct (slice prices 0 p) as [|x rest] eqn:E.
  - exfalso. apply (f_equal (@length number)) in E.
    rewrite length_slice in E. unfold rel_index in E. simpl in E.
    assert (E1 : (p <? 0)%Z = false) by lia. rewrite E1 in E. lia.
  - simpl. eexists. reflexivity.
Qed.

Lemma sub_NaN_r (x : number) : x - NaN = NaN.
Proof. now destruct x. Qed.

(** Whenever [macd] returns, its result is as long as the macd line, and
    the signal line has [1 + max (0, macdLine.length - signalPeriod)]
    elements. *)
Lemma macd_lengths (candles : list Candle.t) (shortEMA longEMA : list number)
    (signalPeriod : Z) (out : list number) :
  macd candles shortEMA longEMA signalPeriod = Ok out ->
  len out = len (macd_macdLine shortEMA longEMA)
  /\ exists signalLine,
       macd_signalLine candles shortEMA longEMA signalPeriod = Ok signalLine
       /\ len signalLine
          = (1 + Z.max 0 (len (macd_macdLine shortEMA longEMA) - signalPeriod))%Z
       /\ out = mapi (fun value i => value - signalLine.[i])
                  (macd_macdLine shortEMA longEMA).
Proof.
  unfold macd. cbv zeta.
  destruct (macd_signalLine candles shortEMA longEMA signalPeriod)
    as [signalLine|e] eqn:Hsig; simpl; [|discriminate].
  intros H. injection H as <-. split; [apply len_mapi|].
  exists signalLine. split; [reflexivity|]. split; [|reflexivity].
  unfold macd_signalLine in Hsig. cbv zeta in Hsig.
  apply ema_length in Hsig. now rewrite len_mapi in Hsig.
Qed.

(** C9, as the code has it.  Whenever [macd] returns, the sequence it
    returns has exactly the length of the macd line.  When moreover
    [signalPeriod <= macdLine.length], the signal line has
    [macdLine.length - signalPeriod + 1] elements ([signalPeriod - 1] fewer
    than the macd line), and for every index
    [i >= macdLine.length - signalPeriod + 1] of the macd line the final
    subtraction reads a signal-line index that does not exist, and the
    element of the result is [NaN].  [macd] does return whenever
    [1 <= signalPeriod <= macdLine.length]. *)
Theorem macd_length_spec (candles : list Candle.t) (shortEMA longEMA : list number)
    (signalPeriod : Z) :
  let macdLine := macd_macdLine shortEMA longEMA in
  (forall out, macd candles shortEMA longEMA signalPeriod = Ok out ->
               len out = len macdLine)
  /\ (forall out, macd candles shortEMA longEMA signalPeriod = Ok out ->
        (signalPeriod <= len macdLine)%Z ->
        exists signalLine,
          macd_signalLine candles shortEMA longEMA signalPeriod = Ok signalLine
          /\ len signalLine = (len macdLine - signalPeriod + 1)%Z
          /\ forall i : Z,
               (len macdLine - signalPeriod + 1 <= i < len macdLine)%Z ->
               get signalLine i = None /\ get out i = Some NaN)
  /\ ((1 <= signalPeriod <= len macdLine)%Z ->
      exists out, macd candles shortEMA longEMA signalPeriod = Ok out).
Proof.
  intros macdLine. split; [|split].
  - intros out Hout. now apply macd_lengths in Hout.
  - intros out Hout Hp.
    destruct (macd_lengths _ _ _ _ _ Hout) as (Hlen & signalLine & Hsl & Hsllen & ->).
    fold macdLine in Hlen, Hsllen |- *.
    exists signalLine. split; [exact Hsl|]. split; [lia|].
    intros i Hi.
    assert (Hnone : get signalLine i = None)
      by (apply get_out_of_range; lia).
    split; [exact Hnone|].
    rewrite get_mapi.
    destruct (get_in_range macdLine i ltac:(lia)) as [v ->].
    simpl. unfold get_num. rewrite Hnone. simpl. now rewrite sub_NaN_r.
  - intros Hp.
    destruct (ema_returns
                (mapi (fun value i =>
                         {| candle := get candles (i + len longEMA - len shortEMA);
                            macdLine := value |}) macdLine)
                signalPeriod key_macdLine) as [signalLine Hsig].
    { lia. }
    { rewrite len_mapi. lia. }
    exists (mapi (fun value i => value - signalLine.[i]) macdLine).
    unfold macd, macd_signalLine. cbv zeta. fold macdLine.
    rewrite Hsig. reflexivity.
Qed.

Lemma macd_length_spec_witness :
  let short := ints [5; 7; 9; 12]%Z in
  let long := ints [3; 3; 3; 3]%Z in
  let out := [of_Z (-1); of_Z (-1); of_Q (-5 # 3); NaN] in
  macd [] short long 2 = Ok out
  /\ (1 <= 2 <= len (macd_macdLine short long))%Z
  /\ len out = len (macd_macdLine short long)
  /\ exists signalLine,
       macd_signalLine [] short long 2 = Ok signalLine
       /\ len signalLine = (len (macd_macdLine short long) - 2 + 1)%Z
       /\ forall i : Z,
            (len (macd_macdLine short long) - 2 + 1 <= i
             < len (macd_macdLine short long))%Z ->
            get signalLine i = None /\ get out i = Some NaN.
Proof.
  intros short long out.
  assert (Hout : macd [] short long 2 = Ok out)
    by (apply result_eqb_eq; vm_compute; reflexivity).
  assert (H : (1 <= 2 <= len (macd_macdLine short long))%Z)
    by (vm_compute; split; discriminate).
  pose proof (macd_length_spec [] short long 2) as Hspec.
  cbv zeta in Hspec. destruct Hspec as (Hlen & Hsig & _).
  split; [exact Hout|]. split; [exact H|].
  split; [exact (Hlen out Hout)|].
  exact (Hsig out Hout (proj2 H)).
Defined.

Example macd_example :
  macd [] (ints [5; 7; 9; 12]%Z) (ints [3; 3; 3; 3]%Z) 2
  = Ok [of_Z (-1); of_Z (-1); of_Q (-5 # 3); NaN].
Proof. apply result_eqb_eq. vm_compute. reflexivity. Qed.

(** C9 does not hold as stated for all inputs.  With a macd line of one
    element and [signalPeriod = 3] the signal line has one element too (not
    [signalPeriod - 1] fewer), index [0 >= macdLine.length - signalPeriod + 1]
    exists in it, and the result is the number [4/3]; with empty EMA series
    [macd] returns no sequence at all: [reduce] throws on the empty seed
    window. *)
Lemma macd_length_counterexample :
  macd_macdLine (ints [5]%Z) (ints [3]%Z) = ints [2]%Z
  /\ macd_signalLine [] (ints [5]%Z) (ints [3]%Z) 3 = Ok [of_Q (2 # 3)]
  /\ (0 >= len (macd_macdLine (ints [5]%Z) (ints [3]%Z)) - 3 + 1)%Z
  /\ get [of_Q (2 # 3)] 0 = Some (of_Q (2 # 3))
  /\ macd [] (ints [5]%Z) (ints [3]%Z) 3 = Ok [of_Q (4 # 3)]
  /\ macd [] [] [] 1 = Throw ReduceOfEmptyArray.
Proof.
  split; [apply series_eqb_eq; vm_compute; reflexivity|].
  split; [apply result_eqb_eq; vm_compute; reflexivity|].
  split; [vm_compute; discriminate|].
  split; [reflexivity|].
  split; [apply result_eqb_eq; vm_compute; reflexivity|].
  reflexivity.
Qed.

(* ------------------------------------------------------------------ *)
(** ** Order on the rationals *)

Ltac qc_to_q :=
  unfold Qcle, Qclt, Qcdiv, Qcminus, Qcplus, Qcmult, Qcopp, Qcinv, qc_of_Z,
    Q2Qc in *;
  cbn [this] in *; rewrite ?Qred_correct in *.

Lemma Qc_add_nonneg (a b : Qc) : (0 <= a -> 0 <= b -> 0 <= a + b)%Qc.
Proof. intros. qc_to_q. lra. Qed.

Lemma Qc_add_nonneg_pos (a b : Qc) : (0 <= a -> 0 < b -> 0 < a + b)%Qc.
Proof. intros. qc_to_q. lra. Qed.

Lemma Qc_add_pos_pos (a b : Qc) : (0 < a -> 0 < b -> 0 < a + b)%Qc.
Proof. intros. qc_to_q. lra. Qed.

Lemma Qc_mul_nonneg (a b : Qc) : (0 <= a -> 0 <= b -> 0 <= a * b)%Qc.
Proof. intros. qc_to_q. nra. Qed.

Lemma Qc_div_pos (a b : Qc) : (0 < a -> 0 < b -> 0 < a / b)%Qc.
Proof.
  intros Ha Hb. qc_to_q.
  apply Qmult_lt_0_compat; [assumption|]. now apply Qinv_lt_0_compat.
Qed.

Lemma Qc_div_nonneg (a b : Qc) : (0 <= a -> 0 < b -> 0 <= a / b)%Qc.
Proof.
  intros Ha Hb. qc_to_q.
  apply Qmult_le_0_compat; [assumption|].
  now apply Qlt_le_weak, Qinv_lt_0_compat.
Qed.

Lemma qc_of_Z_pos (z : Z) : (0 < z)%Z -> (0 < qc_of_Z z)%Qc.
Proof. intros. qc_to_q. unfold Qlt. simpl. lia. Qed.

Lemma qc_of_Z_nonneg (z : Z) : (0 <= z)%Z -> (0 <= qc_of_Z z)%Qc.
Proof. intros. qc_to_q. unfold Qle. simpl. lia. Qed.

Lemma Qc_around (m x : Qc) : (0 <= x -> m - x <= m /\ m <= m + x)%Qc.
Proof. intros. qc_to_q. split; lra. Qed.

Lemma Qc_sub_pos (a b : Qc) : (a < b -> 0 < b - a)%Qc.
Proof. intros. qc_to_q. lra. Qed.

Lemma qsum_nonneg (qs : list Qc) :
  Forall (fun q => (0 <= q)%Qc) qs -> (0 <= qsum qs)%Qc.
Proof.
  induction 1 as [|q qs Hq _ IH]; simpl.
  - apply Qcle_refl.
  - now apply Qc_add_nonneg.
Qed.

Lemma qsum_pos (qs : list Qc) :
  qs <> [] -> Forall (fun q => (0 < q)%Qc) qs -> (0 < qsum qs)%Qc.
Proof.
  intros Hne H. induction H as [|q qs Hq Hqs IH]; [congruence|].
  simpl. destruct qs as [|q' qs'].
  - simpl. now rewrite Qcplus_0_r.
  - apply Qc_add_pos_pos; [assumption|]. apply IH. discriminate.
Qed.

Lemma leb_Fin (a b : Qc) : (a <= b)%Qc -> (Fin a <=? Fin b) = true.
Proof.
  intros H. unfold JsNumber.leb.
  pose proof (proj1 (Qcle_alt a b) H) as Hcmp.
  destruct (Qccompare a b); congruence.
Qed.

Lemma ltb_Fin (a b : Qc) : (Fin a <? Fin b) = true <-> (a < b)%Qc.
Proof.
  unfold JsNumber.ltb. rewrite Qclt_alt. destruct (Qccompare a b); split; congruence.
Qed.

(* ------------------------------------------------------------------ *)
(** ** Means of finite series, and the square root used in examples *)

Lemma mean_Fin (qs : list Qc) : qs <> [] -> mean (map Fin qs) = Fin (qmean qs).
Proof.
  intros Hne. unfold mean, qmean. rewrite series_sum_Fin.
  unfold len. rewrite length_map. apply div_Fin_of_Z.
  destruct qs; [congruence | simpl; lia].
Qed.

Lemma leb_zero_Fin (d : Qc) : (zero <=? Fin d) = true -> (0 <= d)%Qc.
Proof.
  unfold JsNumber.leb, zero, of_Z, of_Q. intros H.
  apply Qcle_alt. intros E.
  change (Q2Qc (inject_Z 0)) with (Q2Qc 0) in H. rewrite E in H. discriminate.
Qed.

Lemma sqrt_floor_nonneg (q : Qc) : (0 <= q)%Qc -> (0 <= sqrt_floor q)%Qc.
Proof.
  intros _. unfold sqrt_floor. qc_to_q. unfold Qle. simpl.
  pose proof (Z.sqrt_nonneg (Qnum q * Z.pos (Qden q))). lia.
Qed.

(* ------------------------------------------------------------------ *)
(** ** rsi: deltas, gains and losses *)

Lemma In_zrange (lo : Z) (k : nat) (i : Z) :
  In i (zrange lo k) -> (lo <= i < lo + Z.of_nat k)%Z.
Proof.
  revert lo. induction k as [|k IH]; intros lo; simpl; [tauto|].
  intros [<-|Hin]; [lia|]. apply IH in Hin. lia.
Qed.

Lemma rsi_deltas_map (vals : list number) :
  rsi_deltas vals
  = map (fun i => vals.[i] - vals.[(i - 1)%Z])
      (zrange 1 (Z.to_nat (len vals - 1))).
Proof. unfold rsi_deltas, for_lt. now rewrite iterate_push. Qed.

Lemma len_rsi_deltas (vals : list number) :
  len (rsi_deltas vals) = Z.max 0 (len vals - 1).
Proof.
  rewrite rsi_deltas_map. unfold len at 1.
  rewrite length_map, length_zrange. lia.
Qed.

Lemma gain_of_positive (x : number) : positive x -> gain_of x = x.
Proof.
  intros [q [-> Hq]]. unfold gain_of, gtb.
  assert (E : (zero <? Fin q) = true) by (now apply ltb_Fin).
  now rewrite E.
Qed.

Lemma loss_of_positive (x : number) : positive x -> loss_of x = zero.
Proof.
  intros [q [-> Hq]]. unfold loss_of.
  destruct (Fin q <? zero) eqn:E; [|reflexivity].
  exfalso. apply ltb_Fin in E.
  exact (Qclt_not_le _ _ E (Qclt_le_weak _ _ Hq)).
Qed.

Lemma positive_list (l : list number) :
  Forall positive l ->
  exists qs, l = map Fin qs /\ Forall (fun q => (0 < q)%Qc) qs.
Proof.
  induction 1 as [|x l [q [-> Hq]] _ [qs [-> Hqs]]].
  - exists []. split; [reflexivity | constructor].
  - exists (q :: qs). split; [reflexivity | now constructor].
Qed.

Lemma calculateAverage_mean (l : list number) : calculateAverage l = mean l.
Proof. reflexivity. Qed.

Lemma calculateAverage_positive (l : list number) :
  l <> [] -> Forall positive l -> positive (calculateAverage l).
Proof.
  intros Hne Hpos. destruct (positive_list l Hpos) as [qs [-> Hqs]].
  assert (Hqne : qs <> []) by (intros ->; now apply Hne).
  rewrite calculateAverage_mean, mean_Fin by assumption.
  exists (qmean qs). split; [reflexivity|].
  unfold qmean. apply Qc_div_pos.
  - now apply qsum_pos.
  - apply qc_of_Z_pos. destruct qs; [congruence | simpl; lia].
Qed.

Lemma qsum_zeros {A : Type} (l : list A) :
  qsum (map (fun _ => Q2Qc 0) l) = Q2Qc 0.
Proof.
  induction l as [|x l IH]; simpl; [reflexivity|].
  rewrite IH. apply Qcplus_0_l.
Qed.

Lemma calculateAverage_zeros {A : Type} (l : list A) :
  l <> [] -> calculateAverage (map (fun _ => zero) l) = zero.
Proof.
  intros Hne. rewrite calculateAverage_mean.
  change (map (fun _ : A => zero) l)
    with (map (fun _ : A => Fin (Q2Qc 0)) l).
  rewrite <- (map_map (fun _ : A => Q2Qc 0) Fin).
  rewrite mean_Fin by (destruct l; [congruence | discriminate]).
  unfold qmean. rewrite qsum_zeros. unfold Qcdiv. now rewrite Qcmult_0_l.
Qed.

(** With no loss at all the division by [avgLoss = 0] gives [Infinity], and
    the index is [100 - 100 / Infinity = 100]. *)
Lemma rsi_value_saturates (g : Qc) :
  (0 < g)%Qc ->
  Fin g / zero = PInf /\ rsi_value (Fin g) zero = hundred.
Proof.
  intros Hg.
  assert (E : Fin g / zero = PInf).
  { unfold div, zero, of_Z, of_Q.
    change (is_zero (Q2Qc (inject_Z 0))) with true. cbn iota.
    unfold sign. apply Qcgt_alt in Hg. now rewrite Hg. }
  split; [exact E|].
  unfold rsi_value. cbv zeta. rewrite E.
  apply eqb_eq. vm_compute. reflexivity.
Qed.

Lemma Forall_firstn_keep {A : Type} (P : A -> Prop) (n : nat) (l : list A) :
  Forall P l -> Forall P (firstn n l).
Proof.
  intros H. revert n. induction H as [|x l Hx _ IH]; intros [|n]; simpl;
    constructor; auto.
Qed.

Lemma get_num_Forall (P : number -> Prop) (l : list number) (i : Z) :
  Forall P l -> (0 <= i < len l)%Z -> P l.[i].
Proof.
  intros H Hi. destruct (get_in_range l i Hi) as [x Hx].
  unfold get_num. rewrite Hx. simpl.
  unfold get in Hx. destruct (i <? 0)%Z; [discriminate|].
  apply nth_error_In in Hx. rewrite Forall_forall in H. now apply H.
Qed.

Example rsi_example_saturated :
  rsi {| period := 2; values := ints [1; 2; 4; 7; 11]%Z |}
  = ints [100; 100; 100; 100]%Z.
Proof. apply series_eqb_eq. vm_compute. reflexivity. Qed.

Example rsi_example_mixed :
  rsi {| period := 2; values := ints [1; 2; 3; 2; 5]%Z |}
  = [of_Z 100; of_Z 100; of_Z 50; of_Q (175 # 2)].
Proof. apply series_eqb_eq. vm_compute. reflexivity. Qed.

(* ------------------------------------------------------------------ *)
(** ** movingAverageEnvelope *)

(** Both envelopes have the length of the simple moving average they are
    derived from. *)
Lemma movingAverageEnvelope_lengths (closePrices : list number) (n : Z)
    (k : number) :
  len (upperEnvelope (movingAverageEnvelope closePrices n k))
  = len (simpleMovingAverage closePrices n)
  /\ len (lowerEnvelope (movingAverageEnvelope closePrices n k))
     = len (simpleMovingAverage closePrices n).
Proof.
  unfold movingAverageEnvelope, len. cbn [upperEnvelope lowerEnvelope].
  now rewrite !length_map.
Qed.

Example movingAverageEnvelope_example :
  upperEnvelope (movingAverageEnvelope (ints [10; 20; 30; 40; 50]%Z) 3 (of_Z 10))
  = ints [33; 44]%Z
  /\ lowerEnvelope (movingAverageEnvelope (ints [10; 20; 30; 40; 50]%Z) 3 (of_Z 10))
     = ints [27; 36]%Z.
Proof. split; apply series_eqb_eq; vm_compute; reflexivity. Qed.

(* ------------------------------------------------------------------ *)
(** ** Further lemmas on arrays, loops and numbers *)

Lemma iterate_ext {St : Type} (k : nat) (i : Z) (body1 body2 : Z -> St -> St)
    (s : St) :
  (forall j st, (j < k)%nat ->
                body1 (i + Z.of_nat j)%Z st = body2 (i + Z.of_nat j)%Z st) ->
  iterate k i body1 s = iterate k i body2 s.
Proof.
  revert i s. induction k as [|k IH]; intros i s Hext; [reflexivity|].
  cbn [iterate].
  replace (body1 i s) with (body2 i s).
  - apply IH. intros j st Hj.
    replace (i + 1 + Z.of_nat j)%Z with (i + Z.of_nat (S j))%Z
      by (rewrite Nat2Z.inj_succ; lia).
    apply Hext. lia.
  - symmetry. specialize (Hext 0%nat s ltac:(lia)).
    now rewrite Z.add_0_r in Hext.
Qed.

Lemma iterate_add {St : Type} (j k : nat) (i : Z) (body : Z -> St -> St) (s : St) :
  iterate (j + k) i body s = iterate k (i + Z.of_nat j)%Z body (iterate j i body s).
Proof.
  revert i s. induction j as [|j IH]; intros i s.
  - simpl. now rewrite Z.add_0_r.
  - cbn [Nat.add iterate]. rewrite IH. rewrite Nat2Z.inj_succ.
    replace (i + Z.succ (Z.of_nat j))%Z with (i + 1 + Z.of_nat j)%Z by lia.
    reflexivity.
Qed.

Lemma len_app {A : Type} (l1 l2 : list A) : len (l1 ++ l2) = (len l1 + len l2)%Z.
Proof. unfold len. rewrite length_app. lia. Qed.

Lemma get_app_left {A : Type} (l1 l2 : list A) (i : Z) :
  (i < len l1)%Z -> get (l1 ++ l2) i = get l1 i.
Proof.
  intros Hi. unfold get. destruct (i <? 0)%Z eqn:E; [reflexivity|].
  apply nth_error_app1. unfold len in Hi. lia.
Qed.

Lemma get_push_last {A : Type} (l : list A) (x : A) :
  get (push l x) (len l) = Some x.
Proof.
  unfold get. pose proof (len_nonneg l) as Hl.
  assert (E : (len l <? 0)%Z = false) by lia. rewrite E.
  unfold push, len.
  rewrite Nat2Z.id, nth_error_app2 by lia.
  now rewrite Nat.sub_diag.
Qed.

Lemma get_map {A B : Type} (f : A -> B) (l : list A) (i : Z) :
  get (map f l) i = option_map f (get l i).
Proof.
  unfold get. destruct (i <? 0)%Z; [reflexivity|]. apply nth_error_map.
Qed.

Lemma get_Forall {A : Type} (P : A -> Prop) (l : list A) (i : Z) (x : A) :
  Forall P l -> get l i = Some x -> P x.
Proof.
  intros H Hx. unfold get in Hx. destruct (i <? 0)%Z; [discriminate|].
  apply nth_error_In in Hx. rewrite Forall_forall in H. now apply H.
Qed.

Lemma add_NaN_l (x : number) : NaN + x = NaN.
Proof. reflexivity. Qed.

Lemma add_NaN_r (x : number) : x + NaN = NaN.
Proof. now destruct x. Qed.

Lemma mul_NaN_l (x : number) : NaN * x = NaN.
Proof. reflexivity. Qed.

Lemma mul_NaN_r (x : number) : x * NaN = NaN.
Proof. now destruct x. Qed.

Lemma div_NaN_l (x : number) : NaN / x = NaN.
Proof. reflexivity. Qed.

Lemma div_NaN_r (x : number) : x / NaN = NaN.
Proof. now destruct x. Qed.

(* ------------------------------------------------------------------ *)
(** ** movingAverage and simpleMovingAverage: what they look at *)

Lemma movingAverage_in_range (data : list number) (N : Z) :
  (0 < N <= len data)%Z -> movingAverage data N = Ok (mean (last_n data N)).
Proof.
  intros HN. unfold movingAverage.
  assert (E : (len data <? N)%Z = false) by lia. rewrite E.
  rewrite last_n_slice by lia.
  rewrite reduce1_add.
  - simpl. unfold mean. now rewrite len_last_n by lia.
  - intros E'. pose proof (len_last_n data N ltac:(lia)) as HlN.
    rewrite E' in HlN. unfold len in HlN. simpl in HlN. lia.
Qed.

(** X1.  [movingAverage] looks at the last [N] elements only: whatever
    comes before a non-empty block [w], asking for [w.length] points gives
    the mean of [w]. *)
Theorem movingAverage_suffix (pre w : list number) :
  w <> [] -> movingAverage (pre ++ w) (len w) = Ok (mean w).
Proof.
  intros Hne.
  assert (Hlen : (0 < len w)%Z).
  { destruct w; [congruence|]. unfold len. simpl. lia. }
  rewrite movingAverage_in_range by (rewrite len_app; pose proof (len_nonneg pre); lia).
  do 2 f_equal. unfold last_n, len.
  rewrite Nat2Z.id, length_app.
  replace (length pre + length w - length w)%nat with (length pre) by lia.
  rewrite skipn_app, skipn_all, Nat.sub_diag. reflexivity.
Qed.

Lemma movingAverage_suffix_witness :
  movingAverage (ints [7; 9]%Z ++ ints [2; 4; 6]%Z) (len (ints [2; 4; 6]%Z))
  = Ok (mean (ints [2; 4; 6]%Z)).
Proof.
  apply (movingAverage_suffix (ints [7; 9]%Z) (ints [2; 4; 6]%Z)). discriminate.
Defined.

Lemma sma_step_app (a b : list number) (n i : Z) (st : number * list number) :
  (0 <= n)%Z -> (i < len a)%Z ->
  sma_step (a ++ b) n i st = sma_step a n i st.
Proof.
  intros Hn Hi. unfold sma_step, get_num. destruct st as [sum sma].
  rewrite !get_app_left by lia. reflexivity.
Qed.

Lemma sma_iterate_extends (c : list number) (n : Z) (k : nat) (i : Z)
    (st : number * list number) :
  exists rest, snd (iterate k i (sma_step c n) st) = snd st ++ rest.
Proof.
  revert i st. induction k as [|k IH]; intros i st.
  - exists []. simpl. now rewrite app_nil_r.
  - cbn [iterate]. destruct (IH (i + 1)%Z (sma_step c n i st)) as [rest ->].
    destruct st as [sum sma]. unfold sma_step.
    destruct (i >=? n)%Z; cbn [snd].
    + exists ([(sum + c.[i] - c.[(i - n)%Z]) / of_Z n] ++ rest).
      unfold push. now rewrite <- app_assoc.
    + now exists rest.
Qed.

(** X3.  For [n >= 0], [simpleMovingAverage] never looks ahead: the values
    computed for a series stay the same, in the same places, when more
    prices are appended. *)
Theorem simpleMovingAverage_append (a b : list number) (n : Z) :
  (0 <= n)%Z ->
  exists rest,
    simpleMovingAverage (a ++ b) n = simpleMovingAverage a n ++ rest.
Proof.
  intros Hn. unfold simpleMovingAverage, for_lt.
  rewrite !Z.sub_0_r. unfold len at 1. rewrite Nat2Z.id, length_app.
  rewrite iterate_add.
  rewrite (iterate_ext (length a) 0 (sma_step (a ++ b) n) (sma_step a n))
    by (intros j st Hj; apply sma_step_app; [lia | unfold len; lia]).
  unfold len at 1. rewrite Nat2Z.id.
  apply sma_iterate_extends.
Qed.

Lemma simpleMovingAverage_append_witness :
  exists rest,
    simpleMovingAverage (ints [10; 20; 30]%Z ++ ints [40; 50]%Z) 2
    = simpleMovingAverage (ints [10; 20; 30]%Z) 2 ++ rest.
Proof.
  apply (simpleMovingAverage_append (ints [10; 20; 30]%Z) (ints [40; 50]%Z) 2).
  lia.
Defined.

(* ------------------------------------------------------------------ *)
(** ** MAD: the value of a window *)

(** The value [MAD] computes for a window that lies inside a finite series:
    the mean absolute deviation of the window, in exact arithmetic. *)
Lemma mad_value_Fin (qs : list Qc) (w i : Z) :
  (1 <= w)%Z -> (0 <= i <= len (map Fin qs) - w)%Z ->
  let ws := firstn (Z.to_nat w) (skipn (Z.to_nat i) qs) in
  let a := (qsum ws / qc_of_Z w)%Qc in
  length ws = Z.to_nat w
  /\ mad_value (map Fin qs) w i
     = Fin (qsum (map (fun q => Qcabs (q - a)) ws) / qc_of_Z w)%Qc.
Proof.
  intros Hw Hi ws a.
  assert (Hlen : len (map Fin qs) = Z.of_nat (length qs))
    by (unfold len; now rewrite length_map).
  rewrite Hlen in Hi.
  assert (Hws : length ws = Z.to_nat w).
  { unfold ws. rewrite length_firstn, length_skipn. lia. }
  split; [exact Hws|].
  unfold mad_value. cbv zeta.
  rewrite slice_inside by lia.
  replace (i + w - i)%Z with w by lia.
  rewrite skipn_map, firstn_map. fold ws.
  unfold reduce.
  change (fold_left (fun sum value => sum + value) (map Fin ws) zero)
    with (series_sum (map Fin ws)).
  rewrite series_sum_Fin, div_Fin_of_Z by lia. fold a.
  rewrite map_map.
  change (fun x : Qc => Math_abs (Fin x - Fin a))
    with (fun x : Qc => Fin (Qcabs (x - a))).
  rewrite <- (map_map (fun x : Qc => Qcabs (x - a)) Fin).
  change (fold_left (fun sum value => sum + value)
            (map Fin (map (fun x : Qc => Qcabs (x - a)) ws)) zero)
    with (series_sum (map Fin (map (fun x : Qc => Qcabs (x - a)) ws))).
  rewrite series_sum_Fin. apply div_Fin_of_Z. lia.
Qed.

Lemma MAD_elements (P : number -> Prop) (numbers : list number) (w : Z) :
  (forall i : Z, (0 <= i <= len numbers - w)%Z -> P (mad_value numbers w i)) ->
  Forall P (MAD numbers w).
Proof.
  intros H. rewrite MAD_map. apply Forall_map, Forall_forall.
  intros i Hi. apply In_zrange in Hi. apply H. lia.
Qed.

(* ------------------------------------------------------------------ *)
(** ** bollingerBands: no look-ahead *)

Lemma slice_app_left {A : Type} (a b : list A) (s e : Z) :
  (0 <= s)%Z -> (0 <= e <= len a)%Z ->
  slice (a ++ b) s e = slice a s e.
Proof.
  intros Hs He. unfold slice, rel_index. cbv zeta.
  rewrite len_app. pose proof (len_nonneg b) as Hb.
  assert (Es : (s <? 0)%Z = false) by lia.
  assert (Ee : (e <? 0)%Z = false) by lia.
  rewrite Es, Ee.
  replace (Z.min e (len a + len b)) with e by lia.
  replace (Z.min e (len a)) with e by lia.
  destruct (Z_le_gt_dec s (len a)) as [Hle|Hgt].
  - replace (Z.min s (len a + len b)) with s by lia.
    replace (Z.min s (len a)) with s by lia.
    rewrite skipn_app, firstn_app.
    replace (Z.to_nat (e - s) - length (skipn (Z.to_nat s) a))%nat with 0%nat
      by (rewrite length_skipn; unfold len in *; lia).
    simpl firstn at 2. now rewrite app_nil_r.
  - replace (Z.to_nat (e - Z.min s (len a + len b))) with 0%nat by lia.
    replace (Z.to_nat (e - Z.min s (len a))) with 0%nat by lia.
    reflexivity.
Qed.

Lemma bollinger_at_app (sqrtQ : Qc -> Qc) (a b : list number) (p : Z)
    (deviation : number) (i : Z) :
  (0 <= i < len a)%Z ->
  bollinger_at sqrtQ (a ++ b) p deviation i = bollinger_at sqrtQ a p deviation i.
Proof.
  intros Hi. unfold bollinger_at.
  destruct (i <? p - 1)%Z eqn:E; [reflexivity|].
  rewrite slice_app_left by lia. reflexivity.
Qed.

(** X7.  [bollingerBands] never looks ahead, whatever the period: the
    records computed for a series are unchanged when more data is
    appended. *)
Theorem bollingerBands_append (sqrtQ : Qc -> Qc) (a b : list number) (p : Z)
    (deviation : number) :
  firstn (length a) (bollingerBands sqrtQ (a ++ b) p deviation)
  = bollingerBands sqrtQ a p deviation.
Proof.
  rewrite !bollingerBands_map, length_app.
  rewrite <- (length_zrange 0 (length a)) at 1.
  assert (Hz : forall (k1 k2 : nat) (lo : Z),
             zrange lo (k1 + k2) = zrange lo k1 ++ zrange (lo + Z.of_nat k1) k2).
  { induction k1 as [|k1 IH]; intros k2 lo.
    - simpl. now rewrite Z.add_0_r.
    - cbn [Nat.add zrange app]. rewrite IH. do 3 f_equal. lia. }
  rewrite Hz, map_app.
  rewrite <- (length_map (bollinger_at sqrtQ (a ++ b) p deviation)
                (zrange 0 (length a))) at 1.
  rewrite firstn_app, Nat.sub_diag, firstn_all. simpl firstn.
  rewrite app_nil_r. apply map_ext_in.
  intros i Hi. apply In_zrange in Hi.
  apply bollinger_at_app. unfold len. lia.
Qed.

(* ------------------------------------------------------------------ *)
(** ** calculateAD: degenerate bars, no look-ahead *)

Lemma ad_running_NaN (bars : list CryptoDataPoint) :
  ad_running NaN bars = map (fun _ => NaN) bars.
Proof.
  induction bars as [|bar rest IH]; [reflexivity|].
  cbn [ad_running map]. rewrite add_NaN_l. now rewrite IH.
Qed.

Lemma get_const_map {A B : Type} (y : B) (l : list A) (j : Z) :
  (0 <= j < len l)%Z -> get (map (fun _ => y) l) j = Some y.
Proof.
  intros Hj. rewrite get_map.
  destruct (get_in_range l j Hj) as [x ->]. reflexivity.
Qed.

(** From the first index where the running total is [NaN], it stays
    [NaN]. *)
Lemma ad_running_NaN_persists (bars : list CryptoDataPoint) (prev : number)
    (i : Z) :
  get (ad_running prev bars) i = Some NaN ->
  forall j : Z, (i <= j < len bars)%Z -> get (ad_running prev bars) j = Some NaN.
Proof.
  revert prev i. induction bars as [|bar rest IH]; intros prev i Hi j Hj.
  - unfold len in Hj. simpl in Hj.
    unfold get in Hi. destruct (i <? 0)%Z eqn:E; [discriminate|]. lia.
  - assert (Hi0 : (0 <= i)%Z).
    { unfold get in Hi. destruct (i <? 0)%Z eqn:E; [discriminate | lia]. }
    assert (Hlen : len (bar :: rest) = (len rest + 1)%Z)
      by (unfold len; simpl; lia).
    rewrite Hlen in Hj.
    cbn [ad_running] in *.
    destruct (Z.eq_dec i 0) as [->|Hnz].
    + rewrite get_zero_cons in Hi. injection Hi as Hcur. rewrite Hcur.
      rewrite ad_running_NaN.
      destruct (Z.eq_dec j 0) as [->|Hjnz]; [reflexivity|].
      rewrite get_pos_cons by lia. apply get_const_map. lia.
    + rewrite get_pos_cons in Hi by lia.
      rewrite get_pos_cons by lia.
      apply (IH _ (i - 1)%Z Hi). lia.
Qed.

(** X9.  In the result of [calculateAD], [NaN] is permanent: once an entry
    is [NaN], every later entry is [NaN]. *)
Theorem calculateAD_NaN_persists (cryptoData : list CryptoDataPoint) (i : Z) :
  get (calculateAD cryptoData) i = Some NaN ->
  forall j : Z, (i <= j < len cryptoData)%Z ->
    get (calculateAD cryptoData) j = Some NaN.
Proof.
  rewrite calculateAD_running. apply ad_running_NaN_persists.
Qed.

Lemma moneyFlowVolume_flat (bar : CryptoDataPoint) :
  is_finite (low bar) -> high bar = low bar -> close bar = low bar ->
  moneyFlowVolume bar = NaN.
Proof.
  intros Hfin Hh Hc. unfold moneyFlowVolume. cbv zeta. rewrite Hh, Hc.
  destruct (low bar) as [c| | |]; try (exfalso; exact Hfin).
  cbn [sub neg add].
  replace (c + - c)%Qc with (Q2Qc 0) by ring.
  replace (Q2Qc 0 + - Q2Qc 0)%Qc with (Q2Qc 0) by ring.
  reflexivity.
Qed.

(** X10.  A flat bar (finite [high = low = close]) makes its own entry of
    [calculateAD] and every later entry [NaN]: the division by
    [high - low = 0] is [0 / 0]. *)
Theorem calculateAD_flat_bar (cryptoData : list CryptoDataPoint) (i : Z)
    (bar : CryptoDataPoint) :
  get cryptoData i = Some bar ->
  is_finite (low bar) -> high bar = low bar -> close bar = low bar ->
  forall j : Z, (i <= j < len cryptoData)%Z ->
    get (calculateAD cryptoData) j = Some NaN.
Proof.
  intros Hget Hfin Hh Hc. rewrite calculateAD_running.
  apply ad_running_NaN_persists.
  rewrite (get_ad_running cryptoData zero i bar Hget).
  rewrite (moneyFlowVolume_flat bar Hfin Hh Hc). now rewrite add_NaN_r.
Qed.

Lemma calculateAD_flat_bar_witness :
  let bar0 := {| timestamp := of_Z 1; high := of_Z 10; low := of_Z 5;
                 close := of_Z 7; volume := of_Z 100 |} in
  let flat := {| timestamp := of_Z 2; high := of_Z 8; low := of_Z 8;
                 close := of_Z 8; volume := of_Z 30 |} in
  let bar2 := {| timestamp := of_Z 3; high := of_Z 12; low := of_Z 8;
                 close := of_Z 11; volume := of_Z 50 |} in
  get (calculateAD [bar0; flat; bar2]) 2 = Some NaN.
Proof.
  intros bar0 flat bar2.
  apply (calculateAD_flat_bar [bar0; flat; bar2] 1 flat).
  - reflexivity.
  - exact I.
  - reflexivity.
  - reflexivity.
  - vm_compute. split; [discriminate | reflexivity].
Defined.

Lemma calculateAD_NaN_persists_witness :
  let bar0 := {| timestamp := of_Z 1; high := of_Z 10; low := of_Z 5;
                 close := of_Z 7; volume := of_Z 100 |} in
  let flat := {| timestamp := of_Z 2; high := of_Z 8; low := of_Z 8;
                 close := of_Z 8; volume := of_Z 30 |} in
  let bar2 := {| timestamp := of_Z 3; high := of_Z 12; low := of_Z 8;
                 close := of_Z 11; volume := of_Z 50 |} in
  get (calculateAD [bar0; flat; bar2]) 2 = Some NaN.
Proof.
  intros bar0 flat bar2.
  apply (calculateAD_NaN_persists [bar0; flat; bar2] 1).
  - reflexivity.
  - vm_compute. split; [discriminate | reflexivity].
Defined.

Lemma ad_running_app (a b : list CryptoDataPoint) (prev : number) :
  exists rest, ad_running prev (a ++ b) = ad_running prev a ++ rest.
Proof.
  revert prev. induction a as [|bar a IH]; intros prev.
  - now exists (ad_running prev b).
  - cbn [app ad_running].
    destruct (IH (prev + moneyFlowVolume bar)) as [rest ->].
    now exists rest.
Qed.

(** X11.  [calculateAD] never looks ahead: the running totals of a series
    of bars are unchanged when more bars are appended. *)
Theorem calculateAD_append (a b : list CryptoDataPoint) :
  exists rest, calculateAD (a ++ b) = calculateAD a ++ rest.
Proof. rewrite !calculateAD_running. apply ad_running_app. Qed.

(* ------------------------------------------------------------------ *)
(** ** rsi: edge cases and range *)

(** A property [Q] of every value of [rsi] follows from a property [P] of
    the pair of averages that holds of the seed, is kept by the smoothing
    step and makes [Q] true of the value computed from the pair. *)
Lemma rsi_forall (P : number -> number -> Prop) (Q : number -> Prop) (p : Z)
    (vals : list number) :
  P (fst (rsi_seed p (rsi_deltas vals))) (snd (rsi_seed p (rsi_deltas vals))) ->
  (forall g l, P g l -> Q (rsi_value g l)) ->
  (forall i g l, (p <= i < len vals)%Z -> P g l ->
     P ((g * of_Z (p - 1) + gain_of (rsi_deltas vals).[(i - 1)%Z]) / of_Z p)
       ((l * of_Z (p - 1) + loss_of (rsi_deltas vals).[(i - 1)%Z]) / of_Z p)) ->
  Forall Q (rsi {| period := p; values := vals |}).
Proof.
  intros Hseed HQ Hstep. unfold rsi, rsi_run. cbn [period values].
  destruct (rsi_seed p (rsi_deltas vals)) as [g0 l0]. cbn [fst snd] in Hseed.
  unfold for_lt.
  assert (Hinv : P (fst (fst (iterate (Z.to_nat (len vals - p)) p
                                (rsi_step p (rsi_deltas vals))
                                (g0, l0, [rsi_value g0 l0]))))
                   (snd (fst (iterate (Z.to_nat (len vals - p)) p
                                (rsi_step p (rsi_deltas vals))
                                (g0, l0, [rsi_value g0 l0]))))
                 /\ Forall Q (snd (iterate (Z.to_nat (len vals - p)) p
                                     (rsi_step p (rsi_deltas vals))
                                     (g0, l0, [rsi_value g0 l0])))).
  { apply (iterate_invariant
             (fun (_ : nat) (st : number * number * list number) =>
                P (fst (fst st)) (snd (fst st)) /\ Forall Q (snd st))).
    - cbn [fst snd]. split; [exact Hseed|]. constructor; [now apply HQ | constructor].
    - intros j [[g l] out] Hj [HP Hout]. cbn [fst snd] in HP, Hout.
      unfold rsi_step.
      change (if (rsi_deltas vals).[(p + Z.of_nat j - 1)%Z] >? zero
              then (rsi_deltas vals).[(p + Z.of_nat j - 1)%Z] else zero)
        with (gain_of (rsi_deltas vals).[(p + Z.of_nat j - 1)%Z]).
      change (if (rsi_deltas vals).[(p + Z.of_nat j - 1)%Z] <? zero
              then Math_abs (rsi_deltas vals).[(p + Z.of_nat j - 1)%Z] else zero)
        with (loss_of (rsi_deltas vals).[(p + Z.of_nat j - 1)%Z]).
      cbn [fst snd].
      pose proof (Hstep (p + Z.of_nat j)%Z g l ltac:(lia) HP) as HP'.
      split; [exact HP'|].
      unfold push. apply Forall_app. split; [exact Hout|].
      constructor; [now apply HQ | constructor]. }
  exact (proj2 Hinv).
Qed.

(** X12.  [rsi] never returns an empty array: the result has
    [1 + max (0, values.length - period)] elements, so exactly one when
    [values.length <= period]. *)
Theorem rsi_never_empty (options : RSIOptions) :
  (1 <= len (rsi options))%Z
  /\ ((len (values options) <= period options)%Z -> len (rsi options) = 1%Z).
Proof.
  rewrite rsi_length. split; [lia|]. intros H. lia.
Qed.

Lemma rsi_never_empty_witness :
  len (rsi {| period := 5; values := ints [1; 2; 3]%Z |}) = 1%Z.
Proof.
  apply (proj2 (rsi_never_empty {| period := 5; values := ints [1; 2; 3]%Z |})).
  vm_compute. discriminate.
Defined.

Lemma rsi_deltas_few (vals : list number) :
  (len vals <= 1)%Z -> rsi_deltas vals = [].
Proof.
  intros H. unfold rsi_deltas, for_lt.
  replace (Z.to_nat (len vals - 1)) with 0%nat by lia. reflexivity.
Qed.

Lemma slice_nil {A : Type} (s e : Z) : slice (@nil A) s e = [].
Proof. unfold slice. cbv zeta. rewrite skipn_nil. apply firstn_nil. Qed.

Lemma rsi_value_NaN_l (l : number) : rsi_value NaN l = NaN.
Proof. reflexivity. Qed.

Lemma rsi_all_NaN_few (p : Z) (vals : list number) :
  (len vals <= 1)%Z ->
  Forall (fun x => x = NaN) (rsi {| period := p; values := vals |}).
Proof.
  intros Hlen.
  apply (rsi_forall (fun g l => g = NaN /\ l = NaN)).
  - rewrite rsi_deltas_few by exact Hlen. unfold rsi_seed. cbv zeta.
    cbn [map]. rewrite slice_nil. split; reflexivity.
  - intros g l [-> ->]. reflexivity.
  - intros i g l _ [-> ->]. split; reflexivity.
Qed.

(** X13.  With fewer than two values there is no delta, both seed averages
    are [0 / 0], and every element of the result of [rsi] is [NaN]. *)
Theorem rsi_few_values (p : Z) (vals : list number) :
  (len vals <= 1)%Z ->
  Forall (fun x => x = NaN) (rsi {| period := p; values := vals |}).
Proof. exact (rsi_all_NaN_few p vals). Qed.

Lemma rsi_few_values_witness :
  Forall (fun x => x = NaN) (rsi {| period := 0; values := ints [7]%Z |}).
Proof.
  apply (rsi_few_values 0 (ints [7]%Z)). vm_compute. discriminate.
Defined.

Lemma is_zero_false (q : Qc) : q <> Q2Qc 0 -> is_zero q = false.
Proof.
  intros H. unfold is_zero, Qc_eq_bool.
  destruct (Qc_eq_dec q (Q2Qc 0)); [contradiction | reflexivity].
Qed.

Lemma Qc_pos_neq (q : Qc) : (0 < q)%Qc -> q <> Q2Qc 0.
Proof. intros H E. rewrite E in H. exact (Qclt_not_eq _ _ H eq_refl). Qed.

Lemma Qc_div_le_self (a b : Qc) : (0 <= a -> 1 <= b -> a / b <= a)%Qc.
Proof.
  intros Ha Hb. qc_to_q.
  apply Qle_shift_div_r; [lra | nra].
Qed.

Lemma slice_0 {A : Type} (l : list A) (p : Z) :
  (0 <= p)%Z -> slice l 0 p = firstn (Z.to_nat p) l.
Proof.
  intros Hp. unfold slice, rel_index. cbv zeta.
  pose proof (len_nonneg l) as Hl.
  assert (E : (p <? 0)%Z = false) by lia. rewrite E. cbn [Z.ltb Z.compare].
  replace (Z.min 0 (len l)) with 0%Z by lia.
  rewrite Z.sub_0_r. cbn [Z.to_nat skipn].
  destruct (Z_le_gt_dec p (len l)) as [Hle|Hgt].
  - now replace (Z.min p (len l)) with p by lia.
  - replace (Z.min p (len l)) with (len l) by lia.
    rewrite !firstn_all2 by (unfold len in *; lia). reflexivity.
Qed.

(** A property of every difference [b - a] of adjacent finite values holds
    of every delta of [rsi]. *)
Lemma rsi_deltas_Forall (P : number -> Prop) (vs : list Qc) :
  (forall (k : nat) (a b : Qc),
      nth_error vs k = Some a -> nth_error vs (S k) = Some b ->
      P (Fin (b - a)%Qc)) ->
  Forall P (rsi_deltas (map Fin vs)).
Proof.
  intros HP. rewrite rsi_deltas_map. apply Forall_forall.
  intros x Hx. apply in_map_iff in Hx as [i [<- Hi]].
  apply In_zrange in Hi.
  assert (Hlen : len (map Fin vs) = Z.of_nat (length vs))
    by (unfold len; now rewrite length_map).
  rewrite Hlen in Hi.
  destruct (nth_error_in_range vs (Z.to_nat i) ltac:(lia)) as [b Hb].
  destruct (nth_error_in_range vs (Z.to_nat (i - 1)) ltac:(lia)) as [a Ha].
  replace i with (Z.of_nat (Z.to_nat i)) at 1 by lia.
  rewrite (get_num_Fin vs _ b Hb).
  replace (i - 1)%Z with (Z.of_nat (Z.to_nat (i - 1))) by lia.
  rewrite (get_num_Fin vs _ a Ha).
  apply (HP (Z.to_nat (i - 1)) a b Ha).
  replace (S (Z.to_nat (i - 1))) with (Z.to_nat i) by lia. exact Hb.
Qed.

Lemma nonnegative_list (l : list number) :
  Forall nonnegative l ->
  exists qs, l = map Fin qs /\ Forall (fun q => (0 <= q)%Qc) qs.
Proof.
  induction 1 as [|x l [q [-> Hq]] _ [qs [-> Hqs]]].
  - exists []. split; [reflexivity | constructor].
  - exists (q :: qs). split; [reflexivity | now constructor].
Qed.

Lemma calculateAverage_nonnegative (l : list number) :
  l <> [] -> Forall nonnegative l -> nonnegative (calculateAverage l).
Proof.
  intros Hne Hpos. destruct (nonnegative_list l Hpos) as [qs [-> Hqs]].
  assert (Hqne : qs <> []) by (intros ->; now apply Hne).
  rewrite calculateAverage_mean, mean_Fin by assumption.
  exists (qmean qs). split; [reflexivity|].
  unfold qmean. apply Qc_div_nonneg.
  - now apply qsum_nonneg.
  - apply qc_of_Z_pos. destruct qs; [congruence | simpl; lia].
Qed.

Lemma gain_of_nonnegative (x : number) : is_finite x -> nonnegative (gain_of x).
Proof.
  intros Hx. destruct x as [q| | |]; try (exfalso; exact Hx).
  unfold gain_of, gtb. destruct (zero <? Fin q) eqn:E.
  - exists q. split; [reflexivity|]. apply Qclt_le_weak. now apply ltb_Fin.
  - exists (Q2Qc 0). split; [reflexivity | apply Qcle_refl].
Qed.

Lemma loss_of_nonnegative (x : number) : is_finite x -> nonnegative (loss_of x).
Proof.
  intros Hx. destruct x as [q| | |]; try (exfalso; exact Hx).
  unfold loss_of. destruct (Fin q <? zero) eqn:E.
  - exists (Qcabs q). split; [reflexivity | apply Qcabs_nonneg].
  - exists (Q2Qc 0). split; [reflexivity | apply Qcle_refl].
Qed.

(** The smoothing step [(avg * (period - 1) + x) / period] keeps finite
    non-negative averages finite and non-negative. *)
Lemma smooth_nonnegative (p : Z) (g x : number) :
  (1 <= p)%Z -> nonnegative g -> nonnegative x ->
  nonnegative ((g * of_Z (p - 1) + x) / of_Z p).
Proof.
  intros Hp [gq [-> Hg]] [xq [-> Hx]].
  change (Fin gq * of_Z (p - 1) + Fin xq)
    with (Fin (gq * qc_of_Z (p - 1) + xq)%Qc).
  rewrite div_Fin_of_Z by lia.
  eexists. split; [reflexivity|].
  apply Qc_div_nonneg; [|apply qc_of_Z_pos; lia].
  apply Qc_add_nonneg; [|exact Hx].
  apply Qc_mul_nonneg; [exact Hg | apply qc_of_Z_nonneg; lia].
Qed.

Lemma smooth_positive (p : Z) (g x : number) :
  (1 <= p)%Z -> positive g -> positive x ->
  positive ((g * of_Z (p - 1) + x) / of_Z p).
Proof.
  intros Hp [gq [-> Hg]] [xq [-> Hx]].
  change (Fin gq * of_Z (p - 1) + Fin xq)
    with (Fin (gq * qc_of_Z (p - 1) + xq)%Qc).
  rewrite div_Fin_of_Z by lia.
  eexists. split; [reflexivity|].
  apply Qc_div_pos; [|apply qc_of_Z_pos; lia].
  apply Qc_add_nonneg_pos; [|exact Hx].
  apply Qc_mul_nonneg; [now apply Qclt_le_weak | apply qc_of_Z_nonneg; lia].
Qed.

Lemma smooth_zero (p : Z) :
  (1 <= p)%Z -> (zero * of_Z (p - 1) + zero) / of_Z p = zero.
Proof.
  intros Hp.
  change (zero * of_Z (p - 1) + zero)
    with (Fin (Q2Qc 0 * qc_of_Z (p - 1) + Q2Qc 0)%Qc).
  rewrite div_Fin_of_Z by lia.
  replace ((Q2Qc 0 * qc_of_Z (p - 1) + Q2Qc 0) / qc_of_Z p)%Qc
    with (Q2Qc 0) by (unfold Qcdiv; ring).
  reflexivity.
Qed.

(** The index computed from two finite non-negative averages is [NaN]
    (both zero) or lies between 0 and 100. *)
Lemma rsi_value_range (g l : number) :
  nonnegative g -> nonnegative l -> NaN_or_percentage (rsi_value g l).
Proof.
  intros [gq [-> Hg]] [lq [-> Hl]].
  destruct (Qc_eq_dec lq (Q2Qc 0)) as [->|Hlnz].
  - destruct (Qc_eq_dec gq (Q2Qc 0)) as [->|Hgnz].
    + left. reflexivity.
    + right. assert (Hgpos : (0 < gq)%Qc).
      { destruct (Qcle_lt_or_eq _ _ Hg) as [H|H]; [exact H | congruence]. }
      change (Fin (Q2Qc 0)) with zero.
      rewrite (proj2 (rsi_value_saturates gq Hgpos)).
      exists (qc_of_Z 100). split; [reflexivity|].
      split; [apply qc_of_Z_nonneg; lia | apply Qcle_refl].
  - right. unfold rsi_value. cbv zeta.
    unfold div at 2. rewrite (is_zero_false lq Hlnz).
    assert (Hlpos : (0 < lq)%Qc).
    { destruct (Qcle_lt_or_eq _ _ Hl) as [H|H]; [exact H | congruence]. }
    assert (Hr : (0 <= gq / lq)%Qc) by (now apply Qc_div_nonneg).
    change (one + Fin (gq / lq)) with (Fin (Q2Qc 1 + gq / lq)%Qc).
    assert (Hden : (1 <= Q2Qc 1 + gq / lq)%Qc) by (qc_to_q; lra).
    assert (Hdpos : (0 < Q2Qc 1 + gq / lq)%Qc).
    { apply Qclt_le_trans with (Q2Qc 1); [|exact Hden]. qc_to_q. lra. }
    unfold hundred at 2, of_Z, of_Q, div.
    rewrite (is_zero_false _ (Qc_pos_neq _ Hdpos)).
    change (Q2Qc (inject_Z 100)) with (qc_of_Z 100).
    eexists. split; [reflexivity|].
    assert (H100 : (0 <= qc_of_Z 100)%Qc) by (apply qc_of_Z_nonneg; lia).
    pose proof (Qc_div_le_self (qc_of_Z 100) _ H100 Hden) as Hle.
    pose proof (Qc_div_nonneg (qc_of_Z 100) _ H100 Hdpos) as Hge.
    split.
    + clear -Hle. set (x := (qc_of_Z 100 / (Q2Qc 1 + gq / lq))%Qc) in *.
      apply (proj1 (Qcle_minus_iff x (qc_of_Z 100))). exact Hle.
    + clear -Hge. set (x := (qc_of_Z 100 / (Q2Qc 1 + gq / lq))%Qc) in *.
      apply (proj2 (Qcle_minus_iff (qc_of_Z 100 + - x) (qc_of_Z 100))).
      replace (qc_of_Z 100 + - (qc_of_Z 100 + - x))%Qc with x by ring.
      exact Hge.
Qed.

Lemma rsi_seed_window {A : Type} (l : list A) (p : Z) :
  (1 <= p)%Z -> l <> [] ->
  slice l 0 p = firstn (Z.to_nat p) l /\ firstn (Z.to_nat p) l <> [].
Proof.
  intros Hp Hne. split; [apply slice_0; lia|].
  destruct l as [|x l]; [congruence|].
  replace (Z.to_nat p) with (S (Z.to_nat (p - 1))) by lia. discriminate.
Qed.

Lemma rsi_deltas_nonempty (vals : list number) :
  (2 <= len vals)%Z -> rsi_deltas vals <> [].
Proof.
  intros Hlen E. pose proof (len_rsi_deltas vals) as H.
  rewrite E in H. unfold len in H at 1. simpl in H. lia.
Qed.

(** X14.  For finite values and [period >= 1], every element of the result
    of [rsi] is [NaN] or a number between 0 and 100. *)
Theorem rsi_range (p : Z) (vals : list number) :
  all_finite vals -> (1 <= p)%Z ->
  Forall NaN_or_percentage (rsi {| period := p; values := vals |}).
Proof.
  intros Hfin Hp.
  destruct (Z_le_gt_dec (len vals) 1) as [Hfew|Hmany].
  { eapply Forall_impl; [|exact (rsi_all_NaN_few p vals Hfew)].
    intros x ->. now left. }
  destruct (all_finite_map vals Hfin) as [vs ->].
  assert (Hdfin : Forall is_finite (rsi_deltas (map Fin vs)))
    by (apply rsi_deltas_Forall; intros; exact I).
  pose proof (rsi_deltas_nonempty (map Fin vs) ltac:(lia)) as Hdne.
  pose proof (len_rsi_deltas (map Fin vs)) as Hdlen.
  apply (rsi_forall (fun g l => nonnegative g /\ nonnegative l)).
  - unfold rsi_seed. cbv zeta. cbn [fst snd].
    destruct (rsi_seed_window (map gain_of (rsi_deltas (map Fin vs))) p Hp)
      as [-> Hgne].
    { intros E. apply map_eq_nil in E. contradiction. }
    destruct (rsi_seed_window (map loss_of (rsi_deltas (map Fin vs))) p Hp)
      as [-> Hlne].
    { intros E. apply map_eq_nil in E. contradiction. }
    split; apply calculateAverage_nonnegative; try assumption;
      apply Forall_firstn_keep, Forall_map;
      (eapply Forall_impl; [|exact Hdfin]); intros x Hx.
    + now apply gain_of_nonnegative.
    + now apply loss_of_nonnegative.
  - intros g l [Hg Hl]. now apply rsi_value_range.
  - intros i g l Hi [Hg Hl].
    assert (Hd : is_finite (rsi_deltas (map Fin vs)).[(i - 1)%Z])
      by (apply get_num_Forall; [exact Hdfin | lia]).
    split; apply smooth_nonnegative; try assumption.
    + now apply gain_of_nonnegative.
    + now apply loss_of_nonnegative.
Qed.

Lemma rsi_range_witness :
  Forall NaN_or_percentage
    (rsi {| period := 2; values := ints [1; 2; 3; 2; 5]%Z |}).
Proof.
  apply (rsi_range 2 (ints [1; 2; 3; 2; 5]%Z)).
  - repeat constructor.
  - lia.
Defined.

Lemma Forall_eq_const_map {A : Type} (y : A) (l : list A) :
  Forall (fun x => x = y) l -> l = map (fun _ => y) l.
Proof.
  induction 1 as [|x l -> _ IH]; [reflexivity|]. simpl. now rewrite <- IH.
Qed.

Lemma calculateAverage_all_zero (l : list number) :
  l <> [] -> Forall (fun x => x = zero) l -> calculateAverage l = zero.
Proof.
  intros Hne Hz. rewrite (Forall_eq_const_map zero l Hz).
  now apply calculateAverage_zeros.
Qed.

(** X15.  On a constant series of a finite value, with [period >= 1], no
    delta is a gain or a loss, [rs] is [0 / 0], and every element of the
    result of [rsi] is [NaN]. *)
Theorem rsi_constant (c : Qc) (p : Z) (vals : list number) :
  Forall (fun x => x = Fin c) vals -> (1 <= p)%Z ->
  Forall (fun x => x = NaN) (rsi {| period := p; values := vals |}).
Proof.
  intros Hconst Hp.
  assert (Hvs : exists vs, vals = map Fin vs /\ Forall (fun q => q = c) vs).
  { induction Hconst as [|x l -> _ IH].
    - exists []. split; [reflexivity | constructor].
    - destruct IH as [vs [-> Hvs]].
      exists (c :: vs). split; [reflexivity | now constructor]. }
  destruct (Z_le_gt_dec (len vals) 1) as [Hfew|Hmany];
    [exact (rsi_all_NaN_few p vals Hfew)|].
  destruct Hvs as [vs [-> Hvs]].
  assert (Hdz : Forall (fun d => d = zero) (rsi_deltas (map Fin vs))).
  { apply rsi_deltas_Forall. intros k a b Ha Hb.
    apply nth_error_In in Ha, Hb. rewrite Forall_forall in Hvs.
    rewrite (Hvs a Ha), (Hvs b Hb).
    replace (c - c)%Qc with (Q2Qc 0) by ring. reflexivity. }
  pose proof (rsi_deltas_nonempty (map Fin vs) ltac:(lia)) as Hdne.
  pose proof (len_rsi_deltas (map Fin vs)) as Hdlen.
  apply (rsi_forall (fun g l => g = zero /\ l = zero)).
  - unfold rsi_seed. cbv zeta. cbn [fst snd].
    destruct (rsi_seed_window (map gain_of (rsi_deltas (map Fin vs))) p Hp)
      as [-> Hgne].
    { intros E. apply map_eq_nil in E. contradiction. }
    destruct (rsi_seed_window (map loss_of (rsi_deltas (map Fin vs))) p Hp)
      as [-> Hlne].
    { intros E. apply map_eq_nil in E. contradiction. }
    split; apply calculateAverage_all_zero; try assumption;
      apply Forall_firstn_keep, Forall_map;
      (eapply Forall_impl; [|exact Hdz]); intros x ->; reflexivity.
  - intros g l [-> ->]. reflexivity.
  - intros i g l Hi [-> ->].
    assert (Hd : (rsi_deltas (map Fin vs)).[(i - 1)%Z] = zero)
      by (apply (get_num_Forall (fun d => d = zero)); [exact Hdz | lia]).
    rewrite Hd.
    change (gain_of zero) with zero. change (loss_of zero) with zero.
    split; now apply smooth_zero.
Qed.

Lemma rsi_constant_witness :
  Forall (fun x => x = NaN) (rsi {| period := 2; values := ints [4; 4; 4; 4]%Z |}).
Proof.
  apply (rsi_constant (Q2Qc 4) 2 (ints [4; 4; 4; 4]%Z)).
  - repeat constructor.
  - lia.
Defined.




(* ------------------------------------------------------------------ *)
(** ** ema: failure, recurrence, period one *)

Lemma slice_0_empty_iff {A : Type} (l : list A) (p : Z) :
  slice l 0 p = [] <-> (len l = 0 \/ p = 0 \/ p <= - len l)%Z.
Proof.
  pose proof (len_nonneg l) as Hl.
  assert (Hlen : length (slice l 0 p)
                 = Z.to_nat (Z.min (rel_index (len l) p) (len l))).
  { rewrite length_slice.
    assert (E0 : rel_index (len l) 0 = 0%Z).
    { unfold rel_index. cbn [Z.ltb Z.compare]. lia. }
    now rewrite E0, !Z.sub_0_r. }
  unfold rel_index in Hlen.
  split.
  - intros E. rewrite E in Hlen. simpl in Hlen.
    destruct (p <? 0)%Z eqn:Ep; lia.
  - intros H. apply length_zero_iff_nil. rewrite Hlen.
    destruct (p <? 0)%Z eqn:Ep; lia.
Qed.

Lemma ema_unfold (candles : list CandleWithMacdLine) (p : Z) (key : CandleKey) :
  ema candles p key
  = match slice (ema_prices candles key) 0 p with
    | [] => Throw ReduceOfEmptyArray
    | x :: rest =>
        Ok (snd (for_lt p (len candles)
                   (ema_step (ema_prices candles key) p)
                   (series_sum (x :: rest) / of_Z p,
                    [series_sum (x :: rest) / of_Z p])))
    end.
Proof.
  unfold ema. cbv zeta. fold (ema_prices candles key).
  assert (Hlen : len (ema_prices candles key) = len candles)
    by (unfold len, ema_prices; now rewrite length_map).
  rewrite Hlen.
  destruct (slice (ema_prices candles key) 0 p) as [|x rest] eqn:E.
  - reflexivity.
  - rewrite reduce1_add by discriminate. reflexivity.
Qed.

Lemma ema_failure_iff (candles : list CandleWithMacdLine) (p : Z)
    (key : CandleKey) :
  ema candles p key = Throw ReduceOfEmptyArray
  <-> (len candles = 0 \/ p = 0 \/ p <= - len candles)%Z.
Proof.
  assert (Hlen : len (ema_prices candles key) = len candles)
    by (unfold len, ema_prices; now rewrite length_map).
  rewrite <- Hlen, <- slice_0_empty_iff, ema_unfold.
  destruct (slice (ema_prices candles key) 0 p); split;
    try reflexivity; discriminate.
Qed.

(** X17.  [ema] throws (the [TypeError] of [reduce] on an empty array)
    exactly when its seed window is empty: no candle, [period = 0], or
    [period <= -candles.length]; in every other case it returns an array of
    [1 + max (0, candles.length - period)] values. *)
Theorem ema_failure (candles : list CandleWithMacdLine) (p : Z) (key : CandleKey) :
  ((len candles = 0 \/ p = 0 \/ p <= - len candles)%Z ->
   ema candles p key = Throw ReduceOfEmptyArray)
  /\ (~ (len candles = 0 \/ p = 0 \/ p <= - len candles)%Z ->
      exists out, ema candles p key = Ok out
                  /\ len out = (1 + Z.max 0 (len candles - p))%Z).
Proof.
  split.
  - apply ema_failure_iff.
  - intros Hok. destruct (ema candles p key) as [out|e] eqn:E.
    + exists out. split; [reflexivity | now apply ema_length in E].
    + exfalso. apply Hok. apply (ema_failure_iff candles p key).
      rewrite E. f_equal.
      rewrite ema_unfold in E.
      destruct (slice (ema_prices candles key) 0 p); [|discriminate].
      now injection E.
Qed.

Lemma ema_failure_witness :
  ema [] 3 key_close = Throw ReduceOfEmptyArray
  /\ exists out,
       ema [ {| candle := None; macdLine := of_Z 2 |};
             {| candle := None; macdLine := of_Z 4 |};
             {| candle := None; macdLine := of_Z 6 |} ] 2 key_macdLine = Ok out
       /\ len out = (1 + Z.max 0 (3 - 2))%Z.
Proof.
  split.
  - apply (proj1 (ema_failure [] 3 key_close)). left. reflexivity.
  - apply (proj2 (ema_failure
                    [ {| candle := None; macdLine := of_Z 2 |};
                      {| candle := None; macdLine := of_Z 4 |};
                      {| candle := None; macdLine := of_Z 6 |} ]
                    2 key_macdLine)).
    vm_compute. intros [H|[H|H]]; try discriminate. now apply H.
Defined.

Lemma len_push {A : Type} (l : list A) (x : A) : len (push l x) = (len l + 1)%Z.
Proof. unfold len, push. rewrite length_app. simpl. lia. Qed.

Lemma get_num_app_left (l1 l2 : list number) (i : Z) :
  (i < len l1)%Z -> (l1 ++ l2).[i] = l1.[i].
Proof. intros Hi. unfold get_num. now rewrite get_app_left. Qed.

(** The values [ema] returns for [1 <= period <= candles.length]: the seed
    mean first, and then each value from the one before it. *)
Lemma ema_values (candles : list CandleWithMacdLine) (p : Z) (key : CandleKey) :
  (1 <= p <= len candles)%Z ->
  let prices := ema_prices candles key in
  exists out,
    ema candles p key = Ok out
    /\ len out = (len candles - p + 1)%Z
    /\ get out 0 = Some (mean (firstn (Z.to_nat p) prices))
    /\ forall j : Z, (0 <= j < len candles - p)%Z ->
         get out (j + 1)
         = Some (prices.[(p + j)%Z] * ema_alpha p
                 + out.[j] * (one - ema_alpha p)).
Proof.
  intros Hp prices.
  assert (Hlen : len prices = len candles)
    by (unfold len, prices, ema_prices; now rewrite length_map).
  rewrite ema_unfold. fold prices. rewrite slice_0 by lia.
  assert (Hw : len (firstn (Z.to_nat p) prices) = p)
    by (unfold len in *; rewrite length_firstn; lia).
  destruct (firstn (Z.to_nat p) prices) as [|x rest] eqn:Ew.
  { unfold len in Hw. simpl in Hw. lia. }
  set (seed := series_sum (x :: rest) / of_Z p).
  assert (Hseed : seed = mean (x :: rest)) by (unfold seed, mean; now rewrite Hw).
  unfold for_lt.
  set (k := Z.to_nat (len candles - p)).
  assert (Hinv :
    let st := iterate k p (ema_step prices p) (seed, [seed]) in
    len (snd st) = (Z.of_nat k + 1)%Z
    /\ get (snd st) (Z.of_nat k) = Some (fst st)
    /\ get (snd st) 0 = Some seed
    /\ forall t : Z, (0 <= t < Z.of_nat k)%Z ->
         get (snd st) (t + 1)
         = Some (prices.[(p + t)%Z] * ema_alpha p
                 + (snd st).[t] * (one - ema_alpha p))).
  { apply (iterate_invariant
             (fun (j : nat) (st : number * list number) =>
                len (snd st) = (Z.of_nat j + 1)%Z
                /\ get (snd st) (Z.of_nat j) = Some (fst st)
                /\ get (snd st) 0 = Some seed
                /\ forall t : Z, (0 <= t < Z.of_nat j)%Z ->
                     get (snd st) (t + 1)
                     = Some (prices.[(p + t)%Z] * ema_alpha p
                             + (snd st).[t] * (one - ema_alpha p)))).
    - cbn [fst snd]. repeat split; try reflexivity. intros t Ht. lia.
    - intros j [e arr] Hj (Hl & Hlast & H0 & Hrec). cbn [fst snd] in *.
      unfold ema_step. cbn [fst snd].
      fold (ema_alpha p).
      set (e' := prices.[(p + Z.of_nat j)%Z] * ema_alpha p
                 + e * (one - ema_alpha p)).
      assert (He : arr.[Z.of_nat j] = e) by (unfold get_num; now rewrite Hlast).
      split; [rewrite len_push; lia|].
      split.
      { replace (Z.of_nat (S j)) with (len arr) by lia. apply get_push_last. }
      split.
      { unfold push. rewrite get_app_left by lia. exact H0. }
      intros t Ht.
      destruct (Z.eq_dec t (Z.of_nat j)) as [->|Hne].
      + replace (Z.of_nat j + 1)%Z with (len arr) by lia.
        rewrite (get_push_last arr e'). unfold push.
        rewrite get_num_app_left by lia. now rewrite He.
      + unfold push. rewrite get_app_left by lia.
        rewrite get_num_app_left by lia. apply Hrec. lia. }
  cbv zeta in Hinv. destruct Hinv as (Hl & _ & H0 & Hrec).
  eexists. split; [reflexivity|].
  split; [rewrite Hl; unfold k; lia|].
  split; [now rewrite H0, Hseed|].
  intros j Hj. apply Hrec. unfold k. lia.
Qed.

(** X18.  For [1 <= period <= candles.length], [ema] returns
    [candles.length - period + 1] values: the first is the mean of the first
    [period] values of the chosen field, and each later one is
    [price * a + previous * (1 - a)] with [a = 2 / (period + 1)], the price
    being the one at the matching index [period + j]. *)
Theorem ema_recurrence (candles : list CandleWithMacdLine) (p : Z)
    (key : CandleKey) :
  (1 <= p <= len candles)%Z ->
  exists out,
    ema candles p key = Ok out
    /\ len out = (len candles - p + 1)%Z
    /\ get out 0 = Some (mean (firstn (Z.to_nat p) (ema_prices candles key)))
    /\ forall j : Z, (0 <= j < len candles - p)%Z ->
         get out (j + 1)
         = Some ((ema_prices candles key).[(p + j)%Z] * ema_alpha p
                 + out.[j] * (one - ema_alpha p)).
Proof. exact (ema_values candles p key). Qed.

Lemma ema_recurrence_witness :
  exists out,
    ema [ {| candle := None; macdLine := of_Z 2 |};
          {| candle := None; macdLine := of_Z 4 |};
          {| candle := None; macdLine := of_Z 6 |} ] 2 key_macdLine = Ok out
    /\ len out = (3 - 2 + 1)%Z
    /\ get out 0 = Some (mean (firstn 2 (ints [2; 4; 6]%Z)))
    /\ forall j : Z, (0 <= j < 3 - 2)%Z ->
         get out (j + 1)
         = Some ((ints [2; 4; 6]%Z).[(2 + j)%Z] * ema_alpha 2
                 + out.[j] * (one - ema_alpha 2)).
Proof.
  apply (ema_recurrence
           [ {| candle := None; macdLine := of_Z 2 |};
             {| candle := None; macdLine := of_Z 4 |};
             {| candle := None; macdLine := of_Z 6 |} ] 2 key_macdLine).
  vm_compute. split; discriminate.
Defined.

Lemma ema_alpha_one : ema_alpha 1 = one.
Proof. apply eqb_eq. vm_compute. reflexivity. Qed.

Lemma get_finite (l : list number) (j : Z) :
  all_finite l -> (0 <= j < len l)%Z -> exists q, get l j = Some (Fin q).
Proof.
  intros Hfin Hj. destruct (get_in_range l j Hj) as [x Hx].
  pose proof (get_Forall _ _ _ _ Hfin Hx) as Hxf.
  destruct x as [q| | |]; try (exfalso; exact Hxf). now exists q.
Qed.

(** X20.  With [period = 1] and finite values of the chosen field in a
    non-empty series of candles, [ema] returns those values unchanged. *)
Theorem ema_period_one (candles : list CandleWithMacdLine) (key : CandleKey) :
  candles <> [] -> all_finite (ema_prices candles key) ->
  ema candles 1 key = Ok (ema_prices candles key).
Proof.
  intros Hne Hfin.
  assert (Hlen : len (ema_prices candles key) = len candles)
    by (unfold len, ema_prices; now rewrite length_map).
  assert (Hpos : (1 <= len candles)%Z).
  { destruct candles; [congruence|]. unfold len. simpl. lia. }
  destruct (ema_values candles 1 key ltac:(lia)) as (out & Hout & Hl & H0 & Hrec).
  rewrite Hout. f_equal.
  assert (Hall : forall n : nat, (Z.of_nat n < len candles)%Z ->
                   get out (Z.of_nat n) = get (ema_prices candles key) (Z.of_nat n)).
  { induction n as [|n IH]; intros Hn.
    - cbn [Z.of_nat]. rewrite H0.
      destruct (get_finite _ 0 Hfin ltac:(lia)) as [q Hq]. rewrite Hq.
      destruct (all_finite_map _ Hfin) as [qs Eqs]. rewrite Eqs in Hq |- *.
      destruct qs as [|q0 qs]; [discriminate|].
      injection Hq as <-. change (Z.to_nat 1) with 1%nat. cbn [map firstn].
      change [Fin q0] with (map Fin [q0]). rewrite mean_Fin by discriminate.
      do 2 f_equal. unfold qmean. cbn [qsum length].
      change (qc_of_Z (Z.of_nat 1)) with (Q2Qc 1).
      field. discriminate.
    - rewrite Nat2Z.inj_succ in *. unfold Z.succ in *.
      rewrite Hrec by lia. rewrite ema_alpha_one.
      destruct (get_finite _ (Z.of_nat n) Hfin ltac:(lia)) as [e He].
      destruct (get_finite _ (1 + Z.of_nat n)%Z Hfin ltac:(lia)) as [x Hx].
      assert (Hprev : out.[Z.of_nat n] = Fin e)
        by (unfold get_num; rewrite IH, He by lia; reflexivity).
      replace (Z.of_nat n + 1)%Z with (1 + Z.of_nat n)%Z by lia.
      unfold get_num at 1. rewrite Hprev, Hx.
      unfold one, of_Z, of_Q. change (inject_Z 1) with 1%Q.
      cbn [to_number add sub neg mul]. do 2 f_equal. ring. }
  apply nth_error_ext. intros n.
  destruct (Z_lt_ge_dec (Z.of_nat n) (len candles)) as [Hn|Hn].
  - specialize (Hall n Hn). unfold get in Hall.
    assert (E : (Z.of_nat n <? 0)%Z = false) by (apply Z.ltb_ge; lia).
    now rewrite E, Nat2Z.id in Hall.
  - transitivity (@None number).
    + apply nth_error_None. unfold len in *. lia.
    + symmetry. apply nth_error_None. unfold len in *. lia.
Qed.

Lemma ema_period_one_witness :
  ema [ {| candle := None; macdLine := of_Z 2 |};
        {| candle := None; macdLine := of_Z 9 |};
        {| candle := None; macdLine := of_Z 4 |} ] 1 key_macdLine
  = Ok (ints [2; 9; 4]%Z).
Proof.
  apply (ema_period_one
           [ {| candle := None; macdLine := of_Z 2 |};
             {| candle := None; macdLine := of_Z 9 |};
             {| candle := None; macdLine := of_Z 4 |} ] key_macdLine).
  - discriminate.
  - repeat constructor.
Defined.

(* ------------------------------------------------------------------ *)
(** ** macd: what it depends on, when it throws *)

Lemma macd_prices (g : Z -> option Candle.t) (line : list number) (i0 : Z) :
  map (fun c => to_number (field c key_macdLine))
    (mapi_from (fun value i => {| candle := g i; macdLine := value |}) i0 line)
  = line.
Proof.
  revert i0. induction line as [|x line IH]; intros i0; simpl;
    [reflexivity | now rewrite IH].
Qed.

Lemma ema_same_prices (cs1 cs2 : list CandleWithMacdLine) (p : Z)
    (key : CandleKey) :
  ema_prices cs1 key = ema_prices cs2 key ->
  ema cs1 p key = ema cs2 p key.
Proof.
  intros H. rewrite !ema_unfold. rewrite H.
  assert (Hlen : len cs1 = len cs2).
  { apply (f_equal (@length number)) in H.
    unfold ema_prices in H. rewrite !length_map in H. unfold len. lia. }
  now rewrite Hlen.
Qed.

(** X21.  The result of [macd] does not depend on its [candles] argument:
    the candle fields are copied into the records given to [ema], which
    only reads [macdLine]. *)
Theorem macd_ignores_candles (candles1 candles2 : list Candle.t)
    (shortEMA longEMA : list number) (signalPeriod : Z) :
  macd candles1 shortEMA longEMA signalPeriod
  = macd candles2 shortEMA longEMA signalPeriod.
Proof.
  unfold macd, macd_signalLine. cbv zeta.
  rewrite (ema_same_prices
             (mapi (fun value i =>
                      {| candle := get candles1 (i + len longEMA - len shortEMA);
                         macdLine := value |}) (macd_macdLine shortEMA longEMA))
             (mapi (fun value i =>
                      {| candle := get candles2 (i + len longEMA - len shortEMA);
                         macdLine := value |}) (macd_macdLine shortEMA longEMA))).
  - reflexivity.
  - unfold ema_prices, mapi.
    assert (Hp : forall cs,
               map (fun c => to_number (field c key_macdLine))
                 (mapi_from (fun value i =>
                    {| candle := get cs (i + len longEMA - len shortEMA);
                       macdLine := value |}) 0 (macd_macdLine shortEMA longEMA))
               = macd_macdLine shortEMA longEMA).
    { intros cs.
      apply (macd_prices
               (fun i => get cs (i + len longEMA - len shortEMA)%Z)). }
    now rewrite !Hp.
Qed.

(** X22.  [macd] throws (the [TypeError] of [reduce] on an empty array)
    exactly when the macd line is empty, [signalPeriod = 0], or
    [signalPeriod <= -macdLine.length]; in every other case it returns as
    many values as the macd line has. *)
Theorem macd_failure (candles : list Candle.t) (shortEMA longEMA : list number)
    (signalPeriod : Z) :
  let m := len (macd_macdLine shortEMA longEMA) in
  ((m = 0 \/ signalPeriod = 0 \/ signalPeriod <= - m)%Z ->
   macd candles shortEMA longEMA signalPeriod = Throw ReduceOfEmptyArray)
  /\ (~ (m = 0 \/ signalPeriod = 0 \/ signalPeriod <= - m)%Z ->
      exists out, macd candles shortEMA longEMA signalPeriod = Ok out
                  /\ len out = m).
Proof.
  intros m.
  pose proof (ema_failure_iff
                (mapi (fun value i =>
                         {| candle := get candles (i + len longEMA - len shortEMA);
                            macdLine := value |}) (macd_macdLine shortEMA longEMA))
                signalPeriod key_macdLine) as Hiff.
  rewrite len_mapi in Hiff. fold m in Hiff.
  unfold macd, macd_signalLine. cbv zeta.
  destruct (ema _ signalPeriod key_macdLine) as [signalLine|e] eqn:E.
  - split.
    + intros H. apply Hiff in H. discriminate.
    + intros _. eexists. split; [reflexivity|]. apply len_mapi.
  - split.
    + intros H. apply Hiff in H. cbn [bind]. congruence.
    + intros H. exfalso. apply H, Hiff. f_equal.
      rewrite ema_unfold in E.
      destruct (slice _ 0 signalPeriod); [|discriminate]. now injection E.
Qed.

Lemma macd_failure_witness :
  macd [] (ints [1]%Z) (ints [1; 2; 3]%Z) 2 = Throw ReduceOfEmptyArray
  /\ exists out,
       macd [] (ints [5; 7; 9; 12]%Z) (ints [3; 3; 3; 3]%Z) 2 = Ok out
       /\ len out = len (macd_macdLine (ints [5; 7; 9; 12]%Z) (ints [3; 3; 3; 3]%Z)).
Proof.
  split.
  - apply (proj1 (macd_failure [] (ints [1]%Z) (ints [1; 2; 3]%Z) 2)).
    left. reflexivity.
  - apply (proj2 (macd_failure [] (ints [5; 7; 9; 12]%Z) (ints [3; 3; 3; 3]%Z) 2)).
    vm_compute. intros [H|[H|H]]; try discriminate. now apply H.
Defined.

(* ------------------------------------------------------------------ *)
(** ** simpleMovingAverage: the values it pushes *)

Lemma series_sum_firstn_succ (c : list number) (k : nat) :
  (k < length c)%nat ->
  series_sum (firstn (S k) c) = series_sum (firstn k c) + c.[Z.of_nat k].
Proof.
  unfold series_sum. generalize zero as z. revert k.
  induction c as [|a c IH]; intros k z Hk; [simpl in Hk; lia|].
  destruct k as [|k].
  - reflexivity.
  - rewrite !firstn_cons. cbn [fold_left].
    rewrite IH by (simpl in Hk; lia). f_equal.
    unfold get_num. rewrite Nat2Z.inj_succ. unfold Z.succ.
    rewrite get_cons_succ by lia. reflexivity.
Qed.

(** The state of the loop of [simpleMovingAverage] after [k] rounds, for
    [n > 0]: while no window is complete, the sum of the prices read so far
    and no output; afterwards the running window sum and, for every output,
    the running window sum of its round divided by [n]. *)
Lemma sma_state (c : list number) (n : Z) (k : nat) :
  (0 < n)%Z -> (k <= length c)%nat ->
  iterate k 0 (sma_step c n) (zero, [])
  = if (Z.of_nat k <=? n)%Z then (series_sum (firstn k c), [])
    else (sma_window_sum c n (k - Z.to_nat n - 1),
          map (fun t : Z => sma_window_sum c n (Z.to_nat t) / of_Z n)
            (zrange 0 (k - Z.to_nat n))).
Proof.
  intros Hn. induction k as [|k IH]; intros Hk.
  - assert (E : (Z.of_nat 0 <=? n)%Z = true) by (apply Z.leb_le; lia).
    rewrite E. reflexivity.
  - rewrite iterate_snoc, IH by lia. clear IH. rewrite Z.add_0_l.
    unfold sma_step. rewrite Z.geb_leb.
    destruct (Z.leb_spec (Z.of_nat k) n) as [H1|H1];
      destruct (Z.leb_spec (Z.of_nat (S k)) n) as [H2|H2]; try lia.
    + assert (E3 : (n <=? Z.of_nat k)%Z = false) by (apply Z.leb_gt; lia).
      rewrite E3.
      now rewrite series_sum_firstn_succ by lia.
    + assert (E3 : (n <=? Z.of_nat k)%Z = true) by (apply Z.leb_le; lia).
      rewrite E3.
      replace (S k - Z.to_nat n - 1)%nat with 0%nat by lia.
      replace (S k - Z.to_nat n)%nat with 1%nat by lia.
      cbn [zrange map sma_window_sum Z.to_nat]. unfold push. cbn [app].
      replace (Z.to_nat n + 1)%nat with (S k) by lia.
      rewrite series_sum_firstn_succ by lia.
      replace (Z.of_nat k - n)%Z with 0%Z by lia.
      reflexivity.
    + assert (E3 : (n <=? Z.of_nat k)%Z = true) by (apply Z.leb_le; lia).
      rewrite E3.
      replace (S k - Z.to_nat n - 1)%nat with (S (k - Z.to_nat n - 1)) by lia.
      replace (S k - Z.to_nat n)%nat with (S (k - Z.to_nat n)) by lia.
      rewrite zrange_snoc, map_app. unfold push. cbn [map sma_window_sum].
      replace (n + Z.of_nat (k - Z.to_nat n - 1) + 1)%Z with (Z.of_nat k) by lia.
      replace (Z.of_nat (k - Z.to_nat n - 1) + 1)%Z with (Z.of_nat k - n)%Z by lia.
      replace (Z.to_nat (0 + Z.of_nat (k - Z.to_nat n)))
        with (S (k - Z.to_nat n - 1)) by lia.
      cbn [sma_window_sum].
      replace (n + Z.of_nat (k - Z.to_nat n - 1) + 1)%Z with (Z.of_nat k) by lia.
      replace (Z.of_nat (k - Z.to_nat n - 1) + 1)%Z with (Z.of_nat k - n)%Z by lia.
      reflexivity.
Qed.

(** In the exact arithmetic of the model the running sum of the loop is a
    difference of two prefix sums, which is the sum of the window. *)
Lemma qsum_app (l1 l2 : list Qc) : qsum (l1 ++ l2) = (qsum l1 + qsum l2)%Qc.
Proof.
  induction l1 as [|q l1 IH]; simpl.
  - now rewrite Qcplus_0_l.
  - rewrite IH. apply Qcplus_assoc.
Qed.

Lemma prefix_sum_succ (qs : list Qc) (k : nat) (q : Qc) :
  nth_error qs k = Some q ->
  prefix_sum qs (S k) = (prefix_sum qs k + q)%Qc.
Proof.
  unfold prefix_sum. revert k. induction qs as [|x qs IH]; intros k Hk.
  - now destruct k.
  - destruct k as [|k]; simpl in Hk.
    + injection Hk as ->. simpl. ring.
    + rewrite !firstn_cons. cbn [qsum]. rewrite (IH k Hk). ring.
Qed.

Lemma prefix_sum_zero (qs : list Qc) : prefix_sum qs 0 = Q2Qc 0.
Proof. reflexivity. Qed.

Lemma qsum_window (qs : list Qc) (a m : nat) :
  qsum (firstn m (skipn a qs)) = (prefix_sum qs (a + m) - prefix_sum qs a)%Qc.
Proof.
  unfold prefix_sum.
  rewrite firstn_skipn_comm.
  rewrite <- (firstn_skipn a (firstn (a + m) qs)) at 2.
  rewrite qsum_app, firstn_firstn.
  replace (Nat.min a (a + m)) with a by lia.
  ring.
Qed.

Lemma sma_invariant (qs : list Qc) (m : nat) (j : nat) :
  (0 < m)%nat -> (j <= length qs)%nat ->
  iterate j 0 (sma_step (map Fin qs) (Z.of_nat m)) (zero, [])
  = (Fin (prefix_sum qs j - prefix_sum qs (j - m))%Qc,
     map (fun t : Z =>
            Fin ((prefix_sum qs (Z.to_nat t + 1 + m)
                  - prefix_sum qs (Z.to_nat t + 1))
                 / qc_of_Z (Z.of_nat m))%Qc)
         (zrange 0 (j - m))).
Proof.
  intros Hm. induction j as [|j IH]; intros Hj.
  - reflexivity.
  - rewrite iterate_snoc, IH by lia. clear IH.
    destruct (nth_error_in_range qs j ltac:(lia)) as [q Hq].
    unfold sma_step. rewrite Z.add_0_l.
    rewrite (get_num_Fin qs j q Hq).
    rewrite (prefix_sum_succ qs j q Hq).
    destruct (Z.of_nat j >=? Z.of_nat m)%Z eqn:E.
    + assert (Hjm : (m <= j)%nat) by lia.
      destruct (nth_error_in_range qs (j - m) ltac:(lia)) as [q' Hq'].
      replace (Z.of_nat j - Z.of_nat m)%Z with (Z.of_nat (j - m)) by lia.
      rewrite (get_num_Fin qs (j - m) q' Hq').
      replace (S j - m)%nat with (S (j - m)) by lia.
      rewrite (prefix_sum_succ qs (j - m) q' Hq').
      rewrite zrange_snoc, map_app. unfold push. simpl map.
      rewrite Nat2Z.id.
      replace (j - m + 1 + m)%nat with (S j) by lia.
      replace (j - m + 1)%nat with (S (j - m)) by lia.
      rewrite (prefix_sum_succ qs j q Hq).
      rewrite (prefix_sum_succ qs (j - m) q' Hq').
      simpl add. simpl sub. simpl add.
      rewrite div_Fin_of_Z by lia.
      replace (prefix_sum qs j - prefix_sum qs (j - m) + q + - q')%Qc
        with (prefix_sum qs j + q - (prefix_sum qs (j - m) + q'))%Qc by ring.
      reflexivity.
    + assert (Hjm : (j < m)%nat) by lia.
      replace (S j - m)%nat with 0%nat by lia.
      replace (j - m)%nat with 0%nat by lia.
      simpl add. f_equal. f_equal. rewrite prefix_sum_zero. ring.
Qed.

Lemma mean_window_Fin (qs : list Qc) (lo : nat) (m : nat) :
  (0 < m)%nat -> (lo + m <= length qs)%nat ->
  mean (window (map Fin qs) (Z.of_nat lo) (Z.of_nat lo + Z.of_nat m - 1))
  = Fin ((prefix_sum qs (lo + m) - prefix_sum qs lo) / qc_of_Z (Z.of_nat m))%Qc.
Proof.
  intros Hm Hlo. rewrite window_Fin.
  replace (Z.to_nat (Z.of_nat lo + Z.of_nat m - 1 - Z.of_nat lo + 1)) with m by lia.
  rewrite Nat2Z.id. unfold mean. rewrite series_sum_Fin.
  unfold len. rewrite length_map, length_firstn, length_skipn.
  replace (Nat.min m (length qs - lo)) with m by lia.
  rewrite div_Fin_of_Z by lia.
  now rewrite qsum_window.
Qed.

Lemma ints_Fin (zs : list Z) : ints zs = map Fin (map qc_of_Z zs).
Proof. unfold ints. now rewrite map_map. Qed.

(** On a series of finite values, in the exact arithmetic of the model,
    output [j] is the mean of [closePrices[j+1 .. j+n]]. *)
Lemma sma_window_mean (qs : list Qc) (n j : Z) :
  (0 < n)%Z -> (0 <= j < len (map Fin qs) - n)%Z ->
  get (simpleMovingAverage (map Fin qs) n) j
  = Some (mean (window (map Fin qs) (j + 1) (j + n))).
Proof.
  intros Hn Hj.
  assert (Hlen : len (map Fin qs) = Z.of_nat (length qs))
    by (unfold len; now rewrite length_map).
  rewrite Hlen in *.
  unfold simpleMovingAverage, for_lt. rewrite Hlen, Z.sub_0_r, Nat2Z.id.
  replace n with (Z.of_nat (Z.to_nat n)) by lia.
  rewrite sma_invariant by lia. simpl snd.
  rewrite get_map_zrange by lia.
  f_equal.
  replace (j + 1)%Z with (Z.of_nat (Z.to_nat j + 1)) by lia.
  replace (j + Z.of_nat (Z.to_nat n))%Z
    with (Z.of_nat (Z.to_nat j + 1) + Z.of_nat (Z.to_nat n) - 1)%Z by lia.
  rewrite mean_window_Fin by lia.
  reflexivity.
Qed.

(** C2, as the code has it.  [simpleMovingAverage] is a total function
    (it has no failure path).  Its result has [max (0, closePrices.length - n)]
    elements when [n > 0], so none when [n > closePrices.length], and one
    per input element (so [closePrices.length] of them) when [n <= 0].  For
    [n > 0], output [j] is the running sum of its round divided by [n]: the
    sum of [closePrices[0 .. n]] less [closePrices[0]] for [j = 0], and from
    then on the previous running sum plus [closePrices[n + j]] less
    [closePrices[j]].  The running sum covers [closePrices[j+1 .. j+n]]: the
    window over [0 .. n-1] is never emitted.  For integer prices whose
    absolute values add up to at most [2 ^ 53], where no addition or
    subtraction of the loop rounds, output [j] is the mean of
    [closePrices[j+1 .. j+n]]. *)
Theorem simpleMovingAverage_spec (closePrices : list number) (n : Z) :
  len (simpleMovingAverage closePrices n)
  = (if (n <=? 0)%Z then len closePrices else Z.max 0 (len closePrices - n))
  /\ ((len closePrices < n)%Z -> simpleMovingAverage closePrices n = [])
  /\ ((0 < n)%Z ->
      forall j : Z, (0 <= j < len closePrices - n)%Z ->
        get (simpleMovingAverage closePrices n) j
        = Some (sma_window_sum closePrices n (Z.to_nat j) / of_Z n))
  /\ (forall zs : list Z,
        closePrices = ints zs ->
        (abs_total zs <= exact_integer_range)%Z ->
        (0 < n)%Z ->
        forall j : Z, (0 <= j < len closePrices - n)%Z ->
          get (simpleMovingAverage closePrices n) j
          = Some (mean (window closePrices (j + 1) (j + n)))).
Proof.
  split; [apply simpleMovingAverage_length|]. split; [|split].
  - intros Hn. pose proof (simpleMovingAverage_length closePrices n) as Hlen.
    pose proof (len_nonneg closePrices) as Hl.
    assert (E : (n <=? 0)%Z = false) by lia. rewrite E in Hlen.
    destruct (simpleMovingAverage closePrices n) as [|x l]; [reflexivity|].
    unfold len in Hlen at 1. simpl in Hlen. lia.
  - intros Hn j Hj.
    unfold simpleMovingAverage, for_lt. rewrite Z.sub_0_r.
    unfold len at 1. rewrite Nat2Z.id.
    rewrite sma_state by lia.
    assert (E : (Z.of_nat (length closePrices) <=? n)%Z = false)
      by (apply Z.leb_gt; unfold len in Hj; lia).
    rewrite E. cbn [snd].
    apply (get_map_zrange
             (fun t : Z => sma_window_sum closePrices n (Z.to_nat t) / of_Z n)).
    unfold len in Hj. lia.
  - intros zs -> _ Hn j Hj. rewrite ints_Fin in *.
    now apply sma_window_mean.
Qed.

(** On [[10, 20, 30, 40, 50]] with [n = 3], output 0 is the running sum
    [(0 + 10 + 20 + 30 + 40) - 10] divided by 3, and it is the mean of
    elements 1 to 3. *)
Lemma simpleMovingAverage_spec_witness :
  let closePrices := ints [10; 20; 30; 40; 50]%Z in
  (0 < 3)%Z
  /\ (0 <= 0 < len closePrices - 3)%Z
  /\ (abs_total [10; 20; 30; 40; 50] <= exact_integer_range)%Z
  /\ get (simpleMovingAverage closePrices 3) 0
     = Some (sma_window_sum closePrices 3 (Z.to_nat 0) / of_Z 3)
  /\ get (simpleMovingAverage closePrices 3) 0
     = Some (mean (window closePrices (0 + 1) (0 + 3))).
Proof.
  cbv zeta.
  assert (Hn : (0 < 3)%Z) by lia.
  assert (Hj : (0 <= 0 < len (ints [10; 20; 30; 40; 50]%Z) - 3)%Z)
    by (vm_compute; split; [discriminate | reflexivity]).
  assert (Hb : (abs_total [10; 20; 30; 40; 50] <= exact_integer_range)%Z)
    by (vm_compute; discriminate).
  pose proof (simpleMovingAverage_spec (ints [10; 20; 30; 40; 50]%Z) 3)
    as (_ & _ & Hsum & Hmean).
  split; [exact Hn|]. split; [exact Hj|]. split; [exact Hb|].
  split; [exact (Hsum Hn 0%Z Hj)|].
  exact (Hmean [10; 20; 30; 40; 50]%Z eq_refl Hb Hn 0%Z Hj).
Defined.

(** C2 does not hold as stated.  With [n = 0] a value is pushed for every
    element, so the result is not empty and its values are [NaN]; with
    [n = -1] the result has [closePrices.length] elements, not
    [closePrices.length - n].  And an output is the running sum divided by
    [n], which need not be the mean of its window: on [[Infinity, 1, 1]]
    with [n = 1] the running sum is [Infinity + 1 - Infinity = NaN], so
    output 0 is [NaN], while the mean of [closePrices[1 .. 1]] is 1. *)
Lemma simpleMovingAverage_nonpositive_n_counterexample :
  simpleMovingAverage (ints [10; 20; 30]%Z) 0 = [NaN; NaN; NaN]
  /\ simpleMovingAverage (ints [10; 20; 30]%Z) 0 <> []
  /\ len (simpleMovingAverage (ints [10; 20; 30]%Z) (-1)) = 3%Z
  /\ len (simpleMovingAverage (ints [10; 20; 30]%Z) (-1))
     <> Z.max 0 (len (ints [10; 20; 30]%Z) - (-1))
  /\ get (simpleMovingAverage [PInf; of_Z 1; of_Z 1] 1) 0 = Some NaN
  /\ mean (window [PInf; of_Z 1; of_Z 1] (0 + 1) (0 + 1)) = of_Z 1
  /\ get (simpleMovingAverage [PInf; of_Z 1; of_Z 1] 1) 0
     <> Some (mean (window [PInf; of_Z 1; of_Z 1] (0 + 1) (0 + 1))).
Proof.
  assert (E : simpleMovingAverage (ints [10; 20; 30]%Z) 0 = [NaN; NaN; NaN])
    by (apply series_eqb_eq; vm_compute; reflexivity).
  split; [exact E|]. split; [rewrite E; discriminate|].
  assert (E' : len (simpleMovingAverage (ints [10; 20; 30]%Z) (-1)) = 3%Z)
    by (vm_compute; reflexivity).
  split; [exact E'|]. split; [rewrite E'; vm_compute; discriminate|].
  assert (E1 : simpleMovingAverage [PInf; of_Z 1; of_Z 1] 1 = [NaN; NaN])
    by (apply series_eqb_eq; vm_compute; reflexivity).
  assert (E2 : mean (window [PInf; of_Z 1; of_Z 1] (0 + 1) (0 + 1)) = of_Z 1)
    by (apply eqb_eq; vm_compute; reflexivity).
  split; [rewrite E1; reflexivity|]. split; [exact E2|].
  rewrite E1, E2. cbn [get Z.ltb Z.compare Z.to_nat nth_error]. discriminate.
Qed.

(* ------------------------------------------------------------------ *)
(** ** Numbers above zero, infinite ones included *)

Lemma positive_above_zero (x : number) : positive x -> above_zero x.
Proof. intros [q [-> Hq]]. now apply ltb_Fin. Qed.

Lemma above_zero_cases (x : number) : above_zero x -> positive x \/ x = PInf.
Proof.
  unfold above_zero. destruct x as [q| | |]; intros H.
  - left. exists q. split; [reflexivity | now apply ltb_Fin].
  - now right.
  - discriminate H.
  - discriminate H.
Qed.

Lemma above_zero_finite (x : number) : above_zero x -> is_finite x -> positive x.
Proof.
  intros H Hfin. destruct (above_zero_cases x H) as [Hp | ->];
    [exact Hp | contradiction].
Qed.

(** The difference of two numbers in strict order is above zero. *)
Lemma sub_above_zero (a b : number) : (a <? b) = true -> above_zero (b - a).
Proof.
  destruct a as [qa| | |], b as [qb| | |]; intros H;
    try discriminate H; try reflexivity.
  apply positive_above_zero. exists (qb - qa)%Qc. split; [reflexivity|].
  apply Qc_sub_pos. now apply ltb_Fin.
Qed.

Lemma above_zero_gain (x : number) :
  above_zero x -> gain_of x = x /\ loss_of x = zero.
Proof.
  intros H. destruct (above_zero_cases x H) as [Hp | ->].
  - split; [now apply gain_of_positive | now apply loss_of_positive].
  - split; reflexivity.
Qed.

Lemma add_above_zero (a b : number) :
  above_zero a -> above_zero b -> above_zero (a + b).
Proof.
  intros Ha Hb.
  destruct (above_zero_cases a Ha) as [[qa [-> Hqa]] | ->];
    destruct (above_zero_cases b Hb) as [[qb [-> Hqb]] | ->]; try reflexivity.
  apply positive_above_zero. exists (qa + qb)%Qc.
  split; [reflexivity | now apply Qc_add_pos_pos].
Qed.

Lemma fold_add_above_zero (l : list number) (z : number) :
  above_zero z -> Forall above_zero l -> above_zero (fold_left add l z).
Proof.
  intros Hz H. revert z Hz.
  induction H as [|x l Hx _ IH]; intros z Hz; [exact Hz|].
  cbn [fold_left]. apply IH. now apply add_above_zero.
Qed.

Lemma series_sum_above_zero (l : list number) :
  l <> [] -> Forall above_zero l -> above_zero (series_sum l).
Proof.
  destruct l as [|x l]; [congruence|]. intros _ H.
  rewrite series_sum_cons. inversion H; subst. now apply fold_add_above_zero.
Qed.

Lemma PInf_div_of_Z (k : Z) : (1 <= k)%Z -> PInf / of_Z k = PInf.
Proof.
  intros Hk. unfold of_Z, of_Q. cbn [div].
  change (Q2Qc (inject_Z k)) with (qc_of_Z k).
  rewrite qc_of_Z_nonzero by lia. cbn [sign].
  pose proof (qc_of_Z_pos k ltac:(lia)) as Hpos.
  apply Qcgt_alt in Hpos. rewrite Hpos. reflexivity.
Qed.

Lemma PInf_mul_of_Z (k : Z) : (1 <= k)%Z -> PInf * of_Z k = PInf.
Proof.
  intros Hk. unfold of_Z, of_Q. cbn [mul sign].
  change (Q2Qc (inject_Z k)) with (qc_of_Z k).
  pose proof (qc_of_Z_pos k ltac:(lia)) as Hpos.
  apply Qcgt_alt in Hpos. rewrite Hpos. reflexivity.
Qed.

Lemma Qc_mul_pos (a b : Qc) : (0 < a -> 0 < b -> 0 < a * b)%Qc.
Proof. intros. qc_to_q. nra. Qed.

Lemma div_above_zero (x : number) (k : Z) :
  above_zero x -> (1 <= k)%Z -> above_zero (x / of_Z k).
Proof.
  intros Hx Hk. destruct (above_zero_cases x Hx) as [[q [-> Hq]] | ->].
  - rewrite div_Fin_of_Z by lia. apply positive_above_zero.
    eexists. split; [reflexivity|].
    apply Qc_div_pos; [exact Hq | apply qc_of_Z_pos; lia].
  - rewrite PInf_div_of_Z by lia. reflexivity.
Qed.

Lemma mul_above_zero (x : number) (k : Z) :
  above_zero x -> (1 <= k)%Z -> above_zero (x * of_Z k).
Proof.
  intros Hx Hk. destruct (above_zero_cases x Hx) as [[q [-> Hq]] | ->].
  - apply positive_above_zero. exists (q * qc_of_Z k)%Qc.
    split; [reflexivity|]. apply Qc_mul_pos; [exact Hq | apply qc_of_Z_pos; lia].
  - rewrite PInf_mul_of_Z by lia. reflexivity.
Qed.

Lemma calculateAverage_above_zero (l : list number) :
  l <> [] -> Forall above_zero l -> above_zero (calculateAverage l).
Proof.
  intros Hne H. rewrite calculateAverage_mean. unfold mean.
  apply div_above_zero; [now apply series_sum_above_zero|].
  destruct l; [congruence | unfold len; simpl; lia].
Qed.

(** The smoothing step of [rsi] with [period >= 2] keeps an average above
    zero, infinite or not. *)
Lemma smooth_above_zero (p : Z) (g x : number) :
  (2 <= p)%Z -> above_zero g -> above_zero x ->
  above_zero ((g * of_Z (p - 1) + x) / of_Z p).
Proof.
  intros Hp Hg Hx. apply div_above_zero; [|lia].
  apply add_above_zero; [|exact Hx]. apply mul_above_zero; [exact Hg | lia].
Qed.

(** With [period = 1] the step multiplies the average by 0, which turns
    an infinite average into [NaN]; [NaN] then stays. *)
Lemma smooth_above_zero_or_NaN (p : Z) (g x : number) :
  (1 <= p)%Z -> above_zero g \/ g = NaN -> above_zero x ->
  above_zero ((g * of_Z (p - 1) + x) / of_Z p)
  \/ (g * of_Z (p - 1) + x) / of_Z p = NaN.
Proof.
  intros Hp [Hg | ->] Hx; [|right; reflexivity].
  destruct (Z.eq_dec p 1) as [->|Hne].
  - destruct (above_zero_cases g Hg) as [[q [-> Hq]] | ->].
    + left. change (1 - 1)%Z with 0%Z.
      replace (Fin q * of_Z 0) with zero
        by (unfold zero, of_Z, of_Q; cbn [mul]; f_equal;
            change (Q2Qc (inject_Z 0)) with (Q2Qc 0); ring).
      rewrite add_zero_l. now apply div_above_zero.
    + right. reflexivity.
  - left. apply smooth_above_zero; [lia | exact Hg | exact Hx].
Qed.

(** With no loss at all and an average gain above zero, the division by
    [avgLoss = 0] gives [Infinity] and the index is
    [100 - 100 / Infinity = 100]. *)
Lemma rsi_value_above_zero (g : number) :
  above_zero g -> g / zero = PInf /\ rsi_value g zero = hundred.
Proof.
  intros Hg. destruct (above_zero_cases g Hg) as [[q [-> Hq]] | ->].
  - now apply rsi_value_saturates.
  - split; [reflexivity | apply eqb_eq; vm_compute; reflexivity].
Qed.

(* ------------------------------------------------------------------ *)
(** ** rsi on a strictly increasing series *)

Lemma get_num_nth (l : list number) (k : nat) (x : number) :
  nth_error l k = Some x -> l.[Z.of_nat k] = x.
Proof.
  intros Hk. unfold get_num, get.
  assert (E : (Z.of_nat k <? 0)%Z = false) by (apply Z.ltb_ge; lia).
  rewrite E, Nat2Z.id, Hk. reflexivity.
Qed.

(** A property of every difference [b - a] of adjacent values holds of
    every delta of [rsi]. *)
Lemma rsi_deltas_adjacent (P : number -> Prop) (vals : list number) :
  (forall (k : nat) (a b : number),
      nth_error vals k = Some a -> nth_error vals (S k) = Some b ->
      P (b - a)) ->
  Forall P (rsi_deltas vals).
Proof.
  intros HP. rewrite rsi_deltas_map. apply Forall_forall.
  intros x Hx. apply in_map_iff in Hx as [i [<- Hi]].
  apply In_zrange in Hi. unfold len in Hi.
  destruct (nth_error_in_range vals (Z.to_nat i) ltac:(lia)) as [b Hb].
  destruct (nth_error_in_range vals (Z.to_nat (i - 1)) ltac:(lia)) as [a Ha].
  replace i with (Z.of_nat (Z.to_nat i)) at 1 by lia.
  rewrite (get_num_nth vals _ b Hb).
  replace (i - 1)%Z with (Z.of_nat (Z.to_nat (i - 1))) by lia.
  rewrite (get_num_nth vals _ a Ha).
  apply (HP (Z.to_nat (i - 1)) a b Ha).
  replace (S (Z.to_nat (i - 1))) with (Z.to_nat i) by lia. exact Hb.
Qed.

Lemma strictly_increasing_adjacent (vals : list number) :
  strictly_increasing vals ->
  forall (k : nat) (a b : number),
    nth_error vals k = Some a -> nth_error vals (S k) = Some b ->
    (a <? b) = true.
Proof.
  induction vals as [|x rest IH]; intros Hinc k a b Ha Hb.
  - now destruct k.
  - destruct rest as [|y rest'].
    + simpl in Hb. now destruct k.
    + destruct Hinc as [Hxy Hrest].
      destruct k as [|k'].
      * simpl in Ha, Hb. injection Ha as <-. injection Hb as <-. exact Hxy.
      * apply (IH Hrest k' a b); assumption.
Qed.

Lemma map_gain_of_above_zero (l : list number) :
  Forall above_zero l -> map gain_of l = l.
Proof.
  induction 1 as [|x l Hx _ IH]; simpl; [reflexivity|].
  now rewrite IH, (proj1 (above_zero_gain x Hx)).
Qed.

Lemma map_loss_of_above_zero (l : list number) :
  Forall above_zero l -> map loss_of l = map (fun _ => zero) l.
Proof.
  induction 1 as [|x l Hx _ IH]; simpl; [reflexivity|].
  now rewrite IH, (proj2 (above_zero_gain x Hx)).
Qed.

(** The seed of [rsi] when every delta is above zero: an average gain
    above zero and an average loss of zero. *)
Lemma rsi_seed_above_zero (p : Z) (deltas : list number) :
  Forall above_zero deltas -> (1 <= p)%Z -> deltas <> [] ->
  above_zero (fst (rsi_seed p deltas)) /\ snd (rsi_seed p deltas) = zero.
Proof.
  intros Hd Hp Hne. unfold rsi_seed. cbv zeta. cbn [fst snd].
  rewrite map_gain_of_above_zero, map_loss_of_above_zero by assumption.
  destruct (rsi_seed_window deltas p Hp Hne) as [-> Hgne].
  destruct (rsi_seed_window (map (fun _ : number => zero) deltas) p Hp) as [-> _].
  { intros E. apply map_eq_nil in E. contradiction. }
  split.
  - apply calculateAverage_above_zero; [exact Hgne|].
    now apply Forall_firstn_keep.
  - rewrite firstn_map. now apply calculateAverage_zeros.
Qed.

(** The first element of the result of [rsi] is the index of the seed
    averages. *)
Lemma rsi_first (p : Z) (vals : list number) :
  get (rsi {| period := p; values := vals |}) 0
  = Some (rsi_value (fst (rsi_seed p (rsi_deltas vals)))
                    (snd (rsi_seed p (rsi_deltas vals)))).
Proof.
  unfold rsi, rsi_run. cbn [period values].
  destruct (rsi_seed p (rsi_deltas vals)) as [g0 l0]. cbn [fst snd].
  unfold for_lt.
  apply (iterate_invariant
           (fun (_ : nat) (st : number * number * list number) =>
              get (snd st) 0 = Some (rsi_value g0 l0))).
  - reflexivity.
  - intros j [[g l] out] _ H. cbn [snd] in H. unfold rsi_step. cbn [snd].
    unfold push. rewrite get_app_left; [exact H|].
    destruct out; [discriminate H|]. unfold len. simpl. lia.
Qed.

(** The deltas of a series of bounded finite values are finite. *)
Lemma rsi_deltas_bounded (vals : list number) :
  Forall (magnitude_at_most half_range) vals ->
  Forall is_finite (rsi_deltas vals).
Proof.
  intros Hb. apply rsi_deltas_adjacent. intros k a b Ha Hb'.
  apply nth_error_In in Ha, Hb'. rewrite Forall_forall in Hb.
  destruct (Hb a Ha) as [qa [-> _]]. destruct (Hb b Hb') as [qb [-> _]].
  exact I.
Qed.

(** C8, as the code has it.  On a strictly increasing series with
    [values.length > period >= 1]: every delta is a gain and its loss is 0;
    the seed [avgLoss] is 0 and the division [avgGain / avgLoss] gives
    [Infinity]; the result has [values.length - period + 1] elements, the
    first of which is exactly 100, and every element is 100 or [NaN].
    Every element is exactly 100 when [period >= 2], and also when the
    values are finite and none exceeds [2 ^ 1022] in absolute value, so that
    no delta is infinite.  Nothing in [rsi] clamps the value: it comes out
    of [100 - 100 / (1 + Infinity)].  What is left out is [period = 1] with
    an infinite delta: the smoothing step then computes
    [Infinity * (period - 1) = Infinity * 0 = NaN]. *)
Theorem rsi_saturation (p : Z) (vals : list number) :
  strictly_increasing vals ->
  (len vals > p)%Z -> (p >= 1)%Z ->
  let deltas := rsi_deltas vals in
  let seed := rsi_seed p deltas in
  let out := rsi {| period := p; values := vals |} in
  Forall (fun delta => gain_of delta = delta /\ loss_of delta = zero) deltas
  /\ snd seed = zero
  /\ fst seed / snd seed = PInf
  /\ len out = (len vals - p + 1)%Z
  /\ get out 0 = Some hundred
  /\ Forall (fun x => x = hundred \/ x = NaN) out
  /\ ((p >= 2)%Z \/ Forall (magnitude_at_most half_range) vals ->
      Forall (fun x => x = hundred) out).
Proof.
  intros Hinc Hlen Hp deltas seed out.
  assert (Hd : Forall above_zero deltas).
  { apply rsi_deltas_adjacent. intros k a b Ha Hb.
    apply sub_above_zero. exact (strictly_increasing_adjacent vals Hinc k a b Ha Hb). }
  pose proof (len_rsi_deltas vals) as Hdl. fold deltas in Hdl.
  assert (Hdne : deltas <> []) by (apply rsi_deltas_nonempty; lia).
  destruct (rsi_seed_above_zero p deltas Hd ltac:(lia) Hdne) as [Hg0 Hl0].
  fold seed in Hg0, Hl0.
  assert (Hread : forall i : Z, (p <= i < len vals)%Z ->
                    above_zero deltas.[(i - 1)%Z])
    by (intros i Hi; apply get_num_Forall; [exact Hd | lia]).
  split.
  { eapply Forall_impl; [|exact Hd]. intros x Hx. now apply above_zero_gain. }
  split; [exact Hl0|].
  split; [rewrite Hl0; exact (proj1 (rsi_value_above_zero _ Hg0))|].
  split.
  { unfold out. rewrite rsi_length. cbn [period values]. lia. }
  split.
  { unfold out. rewrite rsi_first. fold deltas. fold seed. rewrite Hl0.
    now rewrite (proj2 (rsi_value_above_zero _ Hg0)). }
  split.
  { apply (rsi_forall (fun g l => (above_zero g \/ g = NaN) /\ l = zero)).
    - fold deltas. fold seed. split; [now left | exact Hl0].
    - intros g l [[Hg | ->] ->].
      + left. exact (proj2 (rsi_value_above_zero g Hg)).
      + right. reflexivity.
    - intros i g l Hi [Hg ->]. fold deltas.
      destruct (above_zero_gain _ (Hread i Hi)) as [-> ->].
      split; [|apply smooth_zero; lia].
      apply smooth_above_zero_or_NaN; [lia | exact Hg | exact (Hread i Hi)]. }
  intros [Hp2 | Hbound].
  - apply (rsi_forall (fun g l => above_zero g /\ l = zero)).
    + fold deltas. fold seed. split; [exact Hg0 | exact Hl0].
    + intros g l [Hg ->]. exact (proj2 (rsi_value_above_zero g Hg)).
    + intros i g l Hi [Hg ->]. fold deltas.
      destruct (above_zero_gain _ (Hread i Hi)) as [-> ->].
      split; [|apply smooth_zero; lia].
      apply smooth_above_zero; [lia | exact Hg | exact (Hread i Hi)].
  - assert (Hpos : Forall positive deltas).
    { pose proof (rsi_deltas_bounded vals Hbound) as Hfin. fold deltas in Hfin.
      apply Forall_forall. intros x Hx.
      rewrite Forall_forall in Hd, Hfin.
      apply above_zero_finite; [now apply Hd | now apply Hfin]. }
    apply (rsi_forall (fun g l => positive g /\ l = zero)).
    + fold deltas. fold seed. split; [|exact Hl0].
      unfold seed, rsi_seed. cbv zeta. cbn [fst].
      rewrite map_gain_of_above_zero by assumption.
      destruct (rsi_seed_window deltas p ltac:(lia) Hdne) as [-> Hgne].
      apply calculateAverage_positive; [exact Hgne|].
      now apply Forall_firstn_keep.
    + intros g l [Hg ->].
      exact (proj2 (rsi_value_above_zero g (positive_above_zero g Hg))).
    + intros i g l Hi [Hg ->]. fold deltas.
      destruct (above_zero_gain _ (Hread i Hi)) as [-> ->].
      split; [|apply smooth_zero; lia].
      apply smooth_positive; [lia | exact Hg|].
      apply (get_num_Forall positive); [exact Hpos | lia].
Qed.

(** On [[1, 2, 4, 7, 11]] with [period = 2] the preconditions of C8 hold:
    the seed [avgLoss] is 0, [rs] is [Infinity] and the four elements of
    the result are 100. *)
Lemma rsi_saturation_witness :
  let vals := ints [1; 2; 4; 7; 11]%Z in
  strictly_increasing vals
  /\ (len vals > 2)%Z
  /\ snd (rsi_seed 2 (rsi_deltas vals)) = zero
  /\ fst (rsi_seed 2 (rsi_deltas vals)) / snd (rsi_seed 2 (rsi_deltas vals))
     = PInf
  /\ len (rsi {| period := 2; values := vals |}) = (len vals - 2 + 1)%Z
  /\ Forall (fun x => x = hundred) (rsi {| period := 2; values := vals |}).
Proof.
  intros vals.
  assert (Hinc : strictly_increasing vals)
    by (vm_compute; repeat split; reflexivity).
  assert (Hlen : (len vals > 2)%Z) by (vm_compute; reflexivity).
  pose proof (rsi_saturation 2 vals Hinc Hlen ltac:(lia)) as Hsat.
  cbv zeta in Hsat.
  destruct Hsat as (_ & Hloss & Hrs & Hl & _ & _ & Hall).
  split; [exact Hinc|]. split; [exact Hlen|].
  split; [exact Hloss|]. split; [exact Hrs|]. split; [exact Hl|].
  apply Hall. left. lia.
Defined.

(** C8 does not hold as stated.  [[-Infinity, 0, 1]] is strictly
    increasing and longer than [period = 1]; its first delta is
    [0 - (-Infinity) = Infinity], so the seed [avgGain] is [Infinity] and
    the first element is 100, but the next round computes
    [avgGain * (period - 1) = Infinity * 0 = NaN] and every later element is
    [NaN]. *)
Lemma rsi_saturation_counterexample :
  let vals := [NInf; of_Z 0; of_Z 1] in
  strictly_increasing vals
  /\ (len vals > 1)%Z /\ (1 >= 1)%Z
  /\ rsi_deltas vals = [PInf; of_Z 1]
  /\ rsi {| period := 1; values := vals |} = [hundred; NaN; NaN]
  /\ ~ Forall (fun x => x = hundred) (rsi {| period := 1; values := vals |}).
Proof.
  cbv zeta.
  assert (E : rsi {| period := 1; values := [NInf; of_Z 0; of_Z 1] |}
              = [hundred; NaN; NaN])
    by (apply series_eqb_eq; vm_compute; reflexivity).
  split; [vm_compute; repeat split; reflexivity|].
  split; [vm_compute; reflexivity|]. split; [lia|].
  split; [apply series_eqb_eq; vm_compute; reflexivity|].
  split; [exact E|].
  rewrite E. intros H. inversion H as [|x l _ H1]; subst.
  inversion H1 as [|y l' Hy _]; subst. discriminate Hy.
Qed.

(* ------------------------------------------------------------------ *)
(** ** Numbers that are never negative *)

Lemma add_zero_r (x : number) : x + zero = x.
Proof.
  destruct x; try reflexivity.
  unfold zero, of_Z, of_Q. cbn [add]. f_equal. apply Qcplus_0_r.
Qed.

Lemma sub_zero_r (x : number) : x - zero = x.
Proof.
  destruct x; try reflexivity.
  unfold zero, of_Z, of_Q. cbn [sub neg add]. f_equal.
  change (Q2Qc (inject_Z 0)) with (Q2Qc 0). ring.
Qed.

Lemma nonnegative_never_negative (x : number) : nonnegative x -> never_negative x.
Proof. intros H. right. now right. Qed.

Lemma zero_never_negative : never_negative zero.
Proof.
  apply nonnegative_never_negative. exists (Q2Qc 0).
  split; [reflexivity | apply Qcle_refl].
Qed.

Lemma Math_abs_never_negative (x : number) : never_negative (Math_abs x).
Proof.
  destruct x as [q| | |]; cbn [Math_abs].
  - apply nonnegative_never_negative. exists (Qcabs q).
    split; [reflexivity | apply Qcabs_nonneg].
  - right. now left.
  - right. now left.
  - now left.
Qed.

Lemma add_never_negative (a b : number) :
  never_negative a -> never_negative b -> never_negative (a + b).
Proof.
  intros [->|[->|[qa [-> Ha]]]] [->|[->|[qb [-> Hb]]]];
    try (left; reflexivity); try (right; left; reflexivity).
  apply nonnegative_never_negative. exists (qa + qb)%Qc.
  split; [reflexivity | now apply Qc_add_nonneg].
Qed.

Lemma fold_add_never_negative (l : list number) (z : number) :
  never_negative z -> Forall never_negative l ->
  never_negative (fold_left add l z).
Proof.
  intros Hz H. revert z Hz.
  induction H as [|x l Hx _ IH]; intros z Hz; [exact Hz|].
  cbn [fold_left]. apply IH. now apply add_never_negative.
Qed.

Lemma div_never_negative (x : number) (k : Z) :
  never_negative x -> (1 <= k)%Z -> never_negative (x / of_Z k).
Proof.
  intros [->|[->|[q [-> Hq]]]] Hk.
  - now left.
  - right. left. now apply PInf_div_of_Z.
  - rewrite div_Fin_of_Z by lia. apply nonnegative_never_negative.
    eexists. split; [reflexivity|].
    apply Qc_div_nonneg; [exact Hq | apply qc_of_Z_pos; lia].
Qed.

(** A number that is never negative does not compare below zero. *)
Lemma never_negative_not_below (x : number) :
  never_negative x -> (x <? zero) = false.
Proof.
  intros [->|[->|[q [-> Hq]]]]; try reflexivity.
  destruct (Fin q <? zero) eqn:E; [|reflexivity].
  exfalso. apply ltb_Fin in E. exact (Qcle_not_lt _ _ Hq E).
Qed.

(** [Math.sqrt] never gives a negative number, as soon as the square root
    of a non-negative rational is not negative. *)
Lemma Math_sqrt_never_negative (sqrtQ : Qc -> Qc) (v : number) :
  (forall q : Qc, (0 <= q)%Qc -> (0 <= sqrtQ q)%Qc) ->
  never_negative (Math_sqrt sqrtQ v).
Proof.
  intros Hsqrt. destruct v as [q| | |]; cbn [Math_sqrt];
    try (left; reflexivity); try (right; left; reflexivity).
  destruct (Qccompare q (Q2Qc 0)) eqn:E.
  - apply nonnegative_never_negative. eexists. split; [reflexivity|].
    apply Hsqrt. apply Qcge_alt. rewrite E. discriminate.
  - now left.
  - apply nonnegative_never_negative. eexists. split; [reflexivity|].
    apply Hsqrt. apply Qcge_alt. rewrite E. discriminate.
Qed.

(** The product of a [deviation >= 0] and a number that is never negative
    is never negative ([0 * Infinity] being [NaN]). *)
Lemma mul_never_negative (d s : number) :
  (zero <=? d) = true -> never_negative s -> never_negative (d * s).
Proof.
  intros Hd Hs.
  destruct d as [dq| | |]; try discriminate Hd.
  - apply leb_zero_Fin in Hd.
    destruct Hs as [->|[->|[sq [-> Hsq]]]].
    + now left.
    + cbn [mul sign].
      destruct (Qccompare dq (Q2Qc 0)) eqn:E.
      * now left.
      * exfalso. apply (proj2 (Qclt_alt _ _)) in E.
        exact (Qcle_not_lt _ _ Hd E).
      * right. now left.
    + apply nonnegative_never_negative. exists (dq * sq)%Qc.
      split; [reflexivity | now apply Qc_mul_nonneg].
  - destruct Hs as [->|[->|[sq [-> Hsq]]]].
    + now left.
    + right. now left.
    + cbn [mul sign].
      destruct (Qccompare sq (Q2Qc 0)) eqn:E.
      * now left.
      * exfalso. apply (proj2 (Qclt_alt _ _)) in E.
        exact (Qcle_not_lt _ _ Hsq E).
      * right. now left.
Qed.

(** Around any middle value [m], a spread [x] that is never negative gives
    [m - x <= m <= m + x], unless one of the three is [NaN]. *)
Lemma spread_ordered_or_NaN (m x : number) :
  never_negative x ->
  ordered_or_NaN {| upperBand := m + x; middleBand := m; lowerBand := m - x |}.
Proof.
  unfold ordered_or_NaN. cbn [upperBand middleBand lowerBand].
  intros [->|[->|[xq [-> Hx]]]].
  - right. right. right. apply add_NaN_r.
  - destruct m as [mq| | |].
    + left. split; reflexivity.
    + right. left. reflexivity.
    + right. right. right. reflexivity.
    + right. right. left. reflexivity.
  - destruct m as [mq| | |].
    + left. cbn [sub neg add].
      destruct (Qc_around mq xq Hx) as [Hlo Hup].
      split; apply leb_Fin; assumption.
    + left. split; reflexivity.
    + left. split; reflexivity.
    + right. right. left. reflexivity.
Qed.

(* ------------------------------------------------------------------ *)
(** ** bollingerBands: order of the bands *)

(** C10, as the code has it.  For [period >= 1] and [deviation >= 0],
    whatever the data, the record of [bollingerBands] at an index
    [i >= period - 1] has [lowerBand <= middleBand <= upperBand] unless one
    of its bands is [NaN]: the standard deviation is never negative, so
    bands that are numbers do not cross the middle band.  On data of finite
    values the middle band is not [NaN].  The square root is only required
    to be non-negative on non-negative arguments. *)
Theorem bollingerBands_order (sqrtQ : Qc -> Qc) (data : list number) (p : Z)
    (deviation : number) :
  (forall q : Qc, (0 <= q)%Qc -> (0 <= sqrtQ q)%Qc) ->
  (zero <=? deviation) = true ->
  (1 <= p)%Z ->
  forall i : Z, (p - 1 <= i < len data)%Z ->
    exists r : BollingerBandsResult,
      get (bollingerBands sqrtQ data p deviation) i = Some r
      /\ ordered_or_NaN r
      /\ (all_finite data -> middleBand r <> NaN).
Proof.
  intros Hsqrt Hdev Hp i Hi.
  pose proof (bollingerBands_get sqrtQ data p deviation i ltac:(lia)) as Hge.
  rewrite (bollinger_at_window sqrtQ data p i deviation Hp Hi) in Hge.
  eexists. split; [exact Hge|]. split.
  - apply spread_ordered_or_NaN. apply mul_never_negative; [exact Hdev|].
    unfold population_std. now apply Math_sqrt_never_negative.
  - intros Hfin. cbn [middleBand].
    destruct (all_finite_map data Hfin) as [qs ->].
    destruct (bollinger_slice (map Fin qs) p i Hp Hi) as [_ Hlen].
    rewrite window_Fin in *.
    set (ws := firstn (Z.to_nat (i - (i - p + 1) + 1))
                 (skipn (Z.to_nat (i - p + 1)) qs)) in *.
    assert (Hne : ws <> []).
    { intros E. rewrite E in Hlen. unfold len in Hlen. simpl in Hlen. lia. }
    rewrite mean_Fin by assumption. discriminate.
Qed.

(** On [[1, 2, 3, 4, 9]] with [period = 2] and [deviation = 2] the bands
    at index 4 are numbers, in order. *)
Lemma bollingerBands_order_witness :
  exists r : BollingerBandsResult,
    get (bollingerBands sqrt_floor (ints [1; 2; 3; 4; 9]%Z) 2 two) 4 = Some r
    /\ ordered_or_NaN r
    /\ (all_finite (ints [1; 2; 3; 4; 9]%Z) -> middleBand r <> NaN).
Proof.
  apply (bollingerBands_order sqrt_floor (ints [1; 2; 3; 4; 9]%Z) 2 two).
  - exact sqrt_floor_nonneg.
  - vm_compute. reflexivity.
  - lia.
  - vm_compute. split; [discriminate | reflexivity].
Defined.

(** C10 does not hold as stated.  On data that holds a [NaN] the three
    bands are [NaN], and no comparison with [NaN] is true; and with
    [deviation = Infinity >= 0] on the constant data [[1, 1]] the standard
    deviation is 0, so [deviation * stdDev = Infinity * 0 = NaN] and the
    outer bands are [NaN] around the middle band 1. *)
Lemma bollingerBands_order_counterexample :
  (zero <=? zero) = true /\ (zero <=? PInf) = true
  /\ (exists r : BollingerBandsResult,
        get (bollingerBands sqrt_floor [NaN] 1 zero) 0 = Some r
        /\ (lowerBand r <=? middleBand r) = false)
  /\ (exists r : BollingerBandsResult,
        get (bollingerBands sqrt_floor (ints [1; 1]%Z) 2 PInf) 1 = Some r
        /\ middleBand r = of_Z 1 /\ upperBand r = NaN /\ lowerBand r = NaN
        /\ (lowerBand r <=? middleBand r) = false
        /\ (middleBand r <=? upperBand r) = false).
Proof.
  split; [vm_compute; reflexivity|]. split; [vm_compute; reflexivity|].
  split.
  - exists (bollinger_at sqrt_floor [NaN] 1 zero 0).
    split; vm_compute; reflexivity.
  - exists (bollinger_at sqrt_floor (ints [1; 1]%Z) 2 PInf 1).
    split; [vm_compute; reflexivity|].
    split; [apply eqb_eq; vm_compute; reflexivity|].
    repeat split; vm_compute; reflexivity.
Qed.

(** X8.  With [deviation = 0] and [period >= 1], at every index
    [i >= period - 1] the two outer bands are the same value: the middle
    band, or [NaN] (when the standard deviation is infinite or [NaN], since
    [0 * Infinity] is [NaN]). *)
Theorem bollingerBands_zero_deviation (sqrtQ : Qc -> Qc) (data : list number)
    (p : Z) :
  (1 <= p)%Z ->
  forall i : Z, (p - 1 <= i < len data)%Z ->
    exists r : BollingerBandsResult,
      get (bollingerBands sqrtQ data p zero) i = Some r
      /\ upperBand r = lowerBand r
      /\ (upperBand r = middleBand r \/ upperBand r = NaN).
Proof.
  intros Hp i Hi.
  pose proof (bollingerBands_get sqrtQ data p zero i ltac:(lia)) as Hge.
  rewrite (bollinger_at_window sqrtQ data p i zero Hp Hi) in Hge.
  eexists. split; [exact Hge|]. cbn [lowerBand middleBand upperBand].
  set (m := mean (window data (i - p + 1) i)).
  destruct (population_std sqrtQ (window data (i - p + 1) i)) as [sq| | |].
  - replace (zero * Fin sq) with zero
      by (unfold zero, of_Z, of_Q; cbn [mul]; f_equal;
          change (Q2Qc (inject_Z 0)) with (Q2Qc 0); ring).
    rewrite add_zero_r, sub_zero_r. split; [reflexivity | now left].
  - replace (zero * PInf) with NaN by reflexivity.
    unfold sub. cbn [neg]. rewrite add_NaN_r. split; [reflexivity | now right].
  - replace (zero * NInf) with NaN by reflexivity.
    unfold sub. cbn [neg]. rewrite add_NaN_r. split; [reflexivity | now right].
  - rewrite mul_NaN_r.
    unfold sub. cbn [neg]. rewrite add_NaN_r. split; [reflexivity | now right].
Qed.

Lemma bollingerBands_zero_deviation_witness :
  exists r : BollingerBandsResult,
    get (bollingerBands sqrt_floor (ints [1; 2; 3; 4; 9]%Z) 2 zero) 4 = Some r
    /\ upperBand r = lowerBand r
    /\ (upperBand r = middleBand r \/ upperBand r = NaN).
Proof.
  apply (bollingerBands_zero_deviation sqrt_floor (ints [1; 2; 3; 4; 9]%Z) 2).
  - lia.
  - vm_compute. split; [discriminate | reflexivity].
Defined.

(* ------------------------------------------------------------------ *)
(** ** MAD: sign of the values, windows of one element *)

Lemma mad_value_never_negative (numbers : list number) (w i : Z) :
  (1 <= w)%Z -> never_negative (mad_value numbers w i).
Proof.
  intros Hw. unfold mad_value, reduce. cbv zeta.
  apply div_never_negative; [|exact Hw].
  apply (fold_add_never_negative _ zero); [exact zero_never_negative|].
  apply Forall_map, Forall_forall. intros v _. apply Math_abs_never_negative.
Qed.

(** X5.  With [windowSize >= 1], whatever the numbers, a value of [MAD] is
    never negative: it is a finite number that is not below zero,
    [Infinity] or [NaN]. *)
Theorem MAD_nonnegative (numbers : list number) (windowSize : Z) :
  (1 <= windowSize)%Z ->
  Forall (fun x => never_negative x /\ (x <? zero) = false)
    (MAD numbers windowSize).
Proof.
  intros Hw. apply MAD_elements. intros i _.
  pose proof (mad_value_never_negative numbers windowSize i Hw) as H.
  split; [exact H | now apply never_negative_not_below].
Qed.

Lemma MAD_nonnegative_witness :
  Forall (fun x => never_negative x /\ (x <? zero) = false)
    (MAD (ints [1; 2; 4; 8]%Z) 2).
Proof. apply (MAD_nonnegative (ints [1; 2; 4; 8]%Z) 2). lia. Defined.

(** X6.  With [windowSize = 1] every window holds one number, which is its
    own mean: on finite numbers [MAD] gives one value per number, and every
    value is 0. *)
Theorem MAD_window_one (numbers : list number) :
  all_finite numbers ->
  len (MAD numbers 1) = len numbers
  /\ Forall (fun x => x = zero) (MAD numbers 1).
Proof.
  intros Hfin. split.
  - rewrite MAD_length. pose proof (len_nonneg numbers). lia.
  - destruct (all_finite_map numbers Hfin) as [qs ->].
    apply MAD_elements. intros i Hi.
    destruct (mad_value_Fin qs 1 i ltac:(lia) Hi) as [Hlen ->].
    set (ws := firstn (Z.to_nat 1) (skipn (Z.to_nat i) qs)) in *.
    destruct ws as [|v [|v' ws']]; try discriminate Hlen.
    cbn [qsum map]. change (qc_of_Z 1) with (Q2Qc 1).
    replace ((v + Q2Qc 0) / Q2Qc 1)%Qc with v by (field; discriminate).
    replace (v - v)%Qc with (Q2Qc 0) by ring.
    rewrite Qcabs_pos by apply Qcle_refl.
    apply eqb_eq. vm_compute. reflexivity.
Qed.

Lemma MAD_window_one_witness :
  len (MAD (ints [3; 1; 4]%Z) 1) = len (ints [3; 1; 4]%Z)
  /\ Forall (fun x => x = zero) (MAD (ints [3; 1; 4]%Z) 1).
Proof. apply (MAD_window_one (ints [3; 1; 4]%Z)). repeat constructor. Defined.

(* ------------------------------------------------------------------ *)
(** ** movingAverageEnvelope with a percentage of zero *)

(** X4.  With [k = 0] both factors [1 + k / 100] and [1 - k / 100] are 1,
    and both envelopes of [movingAverageEnvelope] are the simple moving
    average itself. *)
Theorem movingAverageEnvelope_zero_percent (closePrices : list number) (n : Z) :
  upperEnvelope (movingAverageEnvelope closePrices n zero)
  = simpleMovingAverage closePrices n
  /\ lowerEnvelope (movingAverageEnvelope closePrices n zero)
     = simpleMovingAverage closePrices n.
Proof.
  unfold movingAverageEnvelope. cbn [upperEnvelope lowerEnvelope].
  assert (Eu : one + zero / hundred = one)
    by (apply eqb_eq; vm_compute; reflexivity).
  assert (El : one - zero / hundred = one)
    by (apply eqb_eq; vm_compute; reflexivity).
  rewrite Eu, El.
  split; (rewrite (map_ext _ (fun price => price) mul_one_r); apply map_id).
Qed.

(* ------------------------------------------------------------------ *)
(** ** rsi on a strictly decreasing series *)








(* ------------------------------------------------------------------ *)
(** ** macd: the two slices on series of different lengths *)

(** C4 at [shortEMA = [1, 2, 3]] and [longEMA = [1]].
    [slice (longEMA.length - shortEMA.length)] is [slice (-2)]: it keeps
    the last two elements [[2, 3]] of the short series and the whole long
    series [[1]].  The two "aligned" series have 2 and 1 elements, not the
    length 1 of the shorter input, and the macd line is [[2 - 1, 3 -
    undefined] = [1, NaN]], of length 2 and not
    [min (shortEMA.length, longEMA.length) = 1].  With the lengths swapped
    ([shortEMA = [1]], [longEMA = [1, 2, 3]]) [slice (2)] empties the short
    series and the macd line has no element. *)
Lemma macd_alignment_failing_input :
  macd_shortEMAValues (ints [1; 2; 3]%Z) (ints [1]%Z) = ints [2; 3]%Z
  /\ macd_longEMAValues (ints [1; 2; 3]%Z) (ints [1]%Z) = ints [1]%Z
  /\ macd_macdLine (ints [1; 2; 3]%Z) (ints [1]%Z) = [of_Z 1; NaN]
  /\ len (macd_macdLine (ints [1; 2; 3]%Z) (ints [1]%Z)) = 2%Z
  /\ Z.min (len (ints [1; 2; 3]%Z)) (len (ints [1]%Z)) = 1%Z
  /\ macd_shortEMAValues (ints [1]%Z) (ints [1; 2; 3]%Z) = []
  /\ macd_longEMAValues (ints [1]%Z) (ints [1; 2; 3]%Z) = ints [3]%Z
  /\ macd_macdLine (ints [1]%Z) (ints [1; 2; 3]%Z) = [].
Proof.
  repeat split; try (apply series_eqb_eq; vm_compute; reflexivity);
    vm_compute; reflexivity.
Qed.
